(** * Deforming a source mesh to a target mesh: a model of the tutorial script

    The development follows [deform_source_mesh_to_target_mesh.py] cell by
    cell: tensor entries, the centre/scale normalisation of the target
    vertices, the mesh objects, the optimisation loop and the export of the
    final mesh.

    Tensor entries are modelled as exact rationals extended with the three
    IEEE special values; arithmetic on finite entries is exact (rounding and
    overflow are not modelled), and a zero is always the positive zero. *)

From Stdlib Require Import String QArith Qabs Lqa List Lia ZArith Bool.
Import ListNotations.
Local Open Scope Q_scope.

(** ** Tensor entries *)

Inductive scalar : Type :=
| Fin (q : Q)
| PInf
| NInf
| NaN.

Definition fneg (a : scalar) : scalar :=
  match a with
  | Fin x => Fin (- x)
  | PInf => NInf
  | NInf => PInf
  | NaN => NaN
  end.

Definition fadd (a b : scalar) : scalar :=
  match a, b with
  | NaN, _ | _, NaN => NaN
  | Fin x, Fin y => Fin (x + y)
  | PInf, NInf | NInf, PInf => NaN
  | PInf, _ | _, PInf => PInf
  | NInf, _ | _, NInf => NInf
  end.

Definition fsub (a b : scalar) : scalar := fadd a (fneg b).

(** Multiplying an infinity [i] by the finite [x]. *)
Definition inf_times (i : scalar) (x : Q) : scalar :=
  match x ?= 0 with
  | Eq => NaN
  | Gt => i
  | Lt => fneg i
  end.

Definition fmul (a b : scalar) : scalar :=
  match a, b with
  | NaN, _ | _, NaN => NaN
  | Fin x, Fin y => Fin (x * y)
  | Fin x, i => inf_times i x
  | i, Fin y => inf_times i y
  | PInf, PInf | NInf, NInf => PInf
  | PInf, NInf | NInf, PInf => NInf
  end.

Definition fdiv (a b : scalar) : scalar :=
  match a, b with
  | NaN, _ | _, NaN => NaN
  | Fin x, Fin y =>
      if Qeq_bool y 0 then
        match x ?= 0 with
        | Eq => NaN
        | Gt => PInf
        | Lt => NInf
        end
      else Fin (x / y)
  | Fin _, _ => Fin 0
  | i, Fin y => if Qle_bool 0 y then i else fneg i
  | _, _ => NaN
  end.

Definition fabs (a : scalar) : scalar :=
  match a with
  | Fin x => Fin (Qabs x)
  | PInf | NInf => PInf
  | NaN => NaN
  end.

(** The comparison [a > b]; it is false as soon as one side is NaN. *)
Definition fgt (a b : scalar) : bool :=
  match a, b with
  | NaN, _ | _, NaN => false
  | Fin x, Fin y => negb (Qle_bool x y)
  | PInf, PInf => false
  | PInf, _ => true
  | _, PInf => false
  | NInf, _ => false
  | _, NInf => true
  end.

(** The binary step of torch's [max] reduction, which propagates NaN. *)
Definition tmax (a b : scalar) : scalar :=
  match a, b with
  | NaN, _ | _, NaN => NaN
  | _, _ => if fgt b a then b else a
  end.

(** The binary step of Python's built-in [max], which keeps the first
    argument unless the second compares greater. *)
Definition pymax (a b : scalar) : scalar := if fgt b a then b else a.

Definition of_nat (n : nat) : scalar := Fin (inject_Z (Z.of_nat n)).

(** ** Rows and tensors of shape (V, 3) *)

Record vec3 : Type := V3 { vx : scalar; vy : scalar; vz : scalar }.

Definition vmap (f : scalar -> scalar) (a : vec3) : vec3 :=
  V3 (f (vx a)) (f (vy a)) (f (vz a)).

Definition vmap2 (f : scalar -> scalar -> scalar) (a b : vec3) : vec3 :=
  V3 (f (vx a) (vx b)) (f (vy a) (vy b)) (f (vz a) (vz b)).

Definition tensor := list vec3.

Definition vzero : vec3 := V3 (Fin 0) (Fin 0) (Fin 0).

(** Exceptions the script can die of: whatever the OBJ reader raises,
    torch's error on reducing an empty tensor, Python's error on an unbound
    name, and the use of a reference to no object (which no run reaches). *)
Inductive exn : Type :=
| LoadError (msg : string)
| EmptyReduction
| NameError (name : string)
| InvalidRef (r : nat).

(** [t.sum(0)] *)
Definition sum0 (t : tensor) : vec3 := fold_right (vmap2 fadd) vzero t.

(** [t.mean(0)]: the column sums divided by the number of rows. *)
Definition mean0 (t : tensor) : vec3 :=
  vmap (fun s => fdiv s (of_nat (length t))) (sum0 t).

(** [t - c], [t / s] and [t * s + c] with broadcasting. *)
Definition sub_row (t : tensor) (c : vec3) : tensor :=
  map (fun v => vmap2 fsub v c) t.

Definition div_scalar (t : tensor) (s : scalar) : tensor :=
  map (vmap (fun a => fdiv a s)) t.

Definition mul_scalar (t : tensor) (s : scalar) : tensor :=
  map (vmap (fun a => fmul a s)) t.

Definition add_row (t : tensor) (c : vec3) : tensor :=
  map (fun v => vmap2 fadd v c) t.

(** [t.abs()] *)
Definition abs (t : tensor) : tensor := map (vmap fabs) t.

(** [t.max(0)[0]]: the column maxima; torch raises on an empty column. *)
Definition max0 (t : tensor) : exn + vec3 :=
  match t with
  | [] => inl EmptyReduction
  | v :: t' => inr (fold_left (vmap2 tmax) t' v)
  end.

(** Python's [max(...)] over the three entries of a row. *)
Definition max (v : vec3) : scalar := pymax (pymax (vx v) (vy v)) (vz v).

(** ** Normalisation of the target vertices

<<
center = verts.mean(0)
verts = verts - center
scale = max(verts.abs().max(0)[0])
verts = verts / scale
>>
    The result holds [center], [scale] and the rebound [verts]. *)

Record normalized : Type := Normalized {
  center : vec3;
  scale : scalar;
  verts : tensor
}.

Definition normalize (verts0 : tensor) : exn + normalized :=
  let center := mean0 verts0 in
  let verts1 := sub_row verts0 center in
  match max0 (abs verts1) with
  | inl e => inl e
  | inr m =>
      let scale := max m in
      inr (Normalized center scale (div_scalar verts1 scale))
  end.

(** [final_verts * scale + center] *)
Definition denormalize (t : tensor) (scale : scalar) (center : vec3) : tensor :=
  add_row (mul_scalar t scale) center.

(** ** Reading tensors: entries, finiteness, numerical equality *)


















(** ** Mesh values, objects and the object store

    [Meshes] is what the library functions see of a mesh of batch size one:
    its packed vertex positions and its packed faces (rows of a
    LongTensor).  In the store a mesh is an object that refers to its
    vertex tensor, and a float tensor is an object with its data and its
    [.grad].  Python variables hold references into the store, so that two
    names can denote one object and an in-place update is seen through
    both. *)

Definition face := (Z * Z * Z)%type.

Record Meshes : Type := mkMeshes {
  verts_packed : tensor;
  faces_packed : list face
}.

Definition ref := nat.

Record Tensor : Type := mkTensor {
  data : tensor;
  grad : option tensor
}.

Inductive object : Type :=
| TensorObj (t : Tensor)
| MeshesObj (verts : ref) (faces : list face).

(** The store after the object at [r] has been replaced by [o]. *)
Fixpoint update_at (h : list object) (r : ref) (o : object) : list object :=
  match h, r with
  | [], _ => []
  | _ :: h', O => o :: h'
  | x :: h', S r' => x :: update_at h' r' o
  end.

(** What a file on disk holds: a mesh in OBJ form, or anything else. *)
Inductive file : Type :=
| ObjFile (v : tensor) (f : list face)
| RawFile (bytes : string).

Definition filesystem := list (string * file).

Fixpoint read_file (fs : filesystem) (path : string) : option file :=
  match fs with
  | [] => None
  | (p, c) :: fs' => if String.eqb p path then Some c else read_file fs' path
  end.

Definition write_file (fs : filesystem) (path : string) (c : file) : filesystem :=
  (path, c) :: fs.

(** What the notebook shows: 3D scatter plots, the loss curves, and the
    descriptions put on the progress bar. *)
Inductive title : Type :=
| Title (s : string)
| IterTitle (i : nat).

Inductive figure : Type :=
| Scatter (t : title) (points : list vec3)
| LossCurves (chamfer edge normal laplacian : list scalar).

(** ** The imported library

    Everything the script imports and does not define: the OBJ reader, the
    sphere generator, the random surface sampler with its generator state,
    the four losses, and the gradient that [loss.backward()] leaves on the
    offsets, given per vertex index. *)

Record library : Type := mkLibrary {
  rng_state : Type;
  load_obj : filesystem -> string -> exn + (tensor * list face);
  ico_sphere : nat -> Meshes;
  sample_points_from_meshes : rng_state -> Meshes -> nat -> tensor * rng_state;
  chamfer_distance : tensor -> tensor -> scalar;
  mesh_edge_loss : Meshes -> scalar;
  mesh_normal_consistency : Meshes -> scalar;
  mesh_laplacian_smoothing : Meshes -> string -> scalar;
  backward : Meshes -> Meshes -> rng_state -> tensor -> nat -> vec3
}.

Record world (L : library) : Type := mkWorld {
  heap : list object;
  files : filesystem;
  figures : list figure;
  descriptions : list scalar;
  rng : rng_state L
}.

Arguments mkWorld {L}.
Arguments heap {L}.
Arguments files {L}.
Arguments figures {L}.
Arguments descriptions {L}.
Arguments rng {L}.

(** ** Script constants *)

Definition trg_obj : string := "./data/doplhin/10014_dolphin_v2_max2011_it2.obj".
Definition final_obj : string := "./final_model.obj".

Definition Niter : nat := 2000.
Definition w_chamfer : scalar := Fin 1.
Definition w_edge : scalar := Fin 1.
Definition w_normal : scalar := Fin (1 # 100).
Definition w_laplacian : scalar := Fin (1 # 10).
Definition plot_period : nat := 250.

(** The optimiser's settings: [SGD([deform_verts], lr=1.0, momentum=0.9)]. *)
Definition lr : scalar := Fin 1.
Definition momentum : scalar := Fin (9 # 10).

(** ** Element-wise tensor operations *)

Fixpoint zip_with (f : vec3 -> vec3 -> vec3) (a b : tensor) : tensor :=
  match a, b with
  | x :: a', y :: b' => f x y :: zip_with f a' b'
  | _, _ => []
  end.

Definition add (a b : tensor) : tensor := zip_with (vmap2 fadd) a b.

(** [torch.full(shape, 0.0)] for a shape of [n] rows. *)
Definition full (n : nat) (c : scalar) : tensor := repeat (V3 c c c) n.

(** ** Script variables of the optimisation cell

    [deform_verts] names the offset tensor; the optimiser was given the
    list [[deform_verts]] and so holds the same reference as its parameter,
    next to its momentum buffer. *)

Record SGD : Type := mkSGD {
  param : ref;
  momentum_buffer : option tensor
}.

Record vars : Type := mkVars {
  deform_verts : ref;
  optimizer : SGD;
  chamfer_losses : list scalar;
  laplacian_losses : list scalar;
  edge_losses : list scalar;
  normal_losses : list scalar;
  new_src_mesh : option ref
}.

(** A loss as the forward pass leaves it: its value and, as its graph, the
    leaf tensor it was computed from with the gradient it will give on it,
    per vertex index. *)
Record loss_tensor : Type := mkLoss {
  loss_value : scalar;
  grad_fn : nat -> vec3;
  leaf : ref
}.

(** ** The script as a program over the world *)

Section Script.

Variable L : library.

(** A computation changes the world and returns a value or dies of an
    exception; nothing in the script catches one. *)
Definition M (A : Type) : Type := world L -> (exn + A) * world L.

Definition ret {A : Type} (a : A) : M A := fun w => (inr a, w).

Definition raise {A : Type} (e : exn) : M A := fun w => (inl e, w).

Definition bind {A B : Type} (c : M A) (k : A -> M B) : M B :=
  fun w =>
    match c w with
    | (inl e, w') => (inl e, w')
    | (inr a, w') => k a w'
    end.

Notation "x <- c ;; k" := (bind c (fun x => k))
  (at level 61, c at next level, right associativity).
Notation "c ;;; k" := (bind c (fun _ => k))
  (at level 61, right associativity).

Definition lift {A : Type} (r : exn + A) : M A := fun w => (r, w).

(** Allocation of a fresh object, access through a reference, and update
    of a tensor in place. *)
Definition alloc (o : object) : M ref :=
  fun w =>
    (inr (length (heap w)),
     mkWorld (heap w ++ [o]) (files w) (figures w) (descriptions w) (rng w)).

Definition get_tensor (r : ref) : M Tensor :=
  fun w =>
    match nth_error (heap w) r with
    | Some (TensorObj t) => (inr t, w)
    | _ => (inl (InvalidRef r), w)
    end.

Definition get_meshes (r : ref) : M (ref * list face) :=
  fun w =>
    match nth_error (heap w) r with
    | Some (MeshesObj v f) => (inr (v, f), w)
    | _ => (inl (InvalidRef r), w)
    end.

Definition set_tensor (r : ref) (t : Tensor) : M unit :=
  fun w =>
    match nth_error (heap w) r with
    | Some (TensorObj _) =>
        (inr tt,
         mkWorld (update_at (heap w) r (TensorObj t)) (files w) (figures w)
           (descriptions w) (rng w))
    | _ => (inl (InvalidRef r), w)
    end.

(** What a library function sees of the mesh at [r]. *)
Definition read_mesh (r : ref) : M Meshes :=
  m <- get_meshes r ;;
  t <- get_tensor (fst m) ;;
  ret (mkMeshes (data t) (snd m)).

(** A new mesh object, with a new tensor for its vertices. *)
Definition new_mesh (m : Meshes) : M ref :=
  v <- alloc (TensorObj (mkTensor (verts_packed m) None)) ;;
  alloc (MeshesObj v (faces_packed m)).

Definition show (f : figure) : M unit :=
  fun w =>
    (inr tt,
     mkWorld (heap w) (files w) (figures w ++ [f]) (descriptions w) (rng w)).

Definition set_description (loss : scalar) : M unit :=
  fun w =>
    (inr tt,
     mkWorld (heap w) (files w) (figures w) (descriptions w ++ [loss]) (rng w)).

Definition get_rng : M (rng_state L) := fun w => (inr (rng w), w).

(** [sample_points_from_meshes(mesh, n)]: draws from the generator. *)
Definition sample (mesh : ref) (n : nat) : M tensor :=
  m <- read_mesh mesh ;;
  fun w =>
    let (pts, r) := sample_points_from_meshes L (rng w) m n in
    (inr pts, mkWorld (heap w) (files w) (figures w) (descriptions w) r).

(** [load_obj(path)], reading the file system of the world. *)
Definition load (path : string) : M (tensor * list face) :=
  fun w => (load_obj L (files w) path, w).

(** Modelled from the spec: [Meshes.offset_verts], which is not part of the
    script.  It adds the offset vector to each corresponding vertex of the
    mesh and produces a new mesh instance with the same faces; the mesh it
    is called on and the offsets are left as they are. *)
Definition offset_verts (self : ref) (offsets : ref) : M ref :=
  m <- read_mesh self ;;
  d <- get_tensor offsets ;;
  new_mesh (mkMeshes (add (verts_packed m) (data d)) (faces_packed m)).

(** Modelled from the spec: [Meshes.get_mesh_verts_faces], which is not part
    of the script.  For the single mesh of the batch it gives the vertex
    positions and the faces of the mesh. *)
Definition get_mesh_verts_faces (self : ref) (index : nat) : M (tensor * list face) :=
  m <- read_mesh self ;;
  ret (verts_packed m, faces_packed m).

(** Modelled from the spec: [save_obj], which is not part of the script.  It
    writes the vertex positions alongside the faces to a mesh file at the
    path. *)
Definition save_obj (path : string) (v : tensor) (f : list face) : M unit :=
  fun w =>
    (inr tt,
     mkWorld (heap w) (write_file (files w) path (ObjFile v f)) (figures w)
       (descriptions w) (rng w)).

Definition scatter_of (t : title) (m : Meshes) : figure :=
  Scatter t (map (fun v => V3 (vx v) (vz v) (fneg (vy v))) (verts_packed m)).

(** [plot_pointcloud(mesh, title)]: a scatter plot of (x, z, -y). *)
Definition plot_pointcloud (mesh : ref) (t : title) : M unit :=
  m <- read_mesh mesh ;;
  show (scatter_of t m).

(** *** The optimiser and the gradient *)

(** [optimizer.zero_grad()]: an existing gradient of the parameter is
    zeroed in place. *)
Definition zero_grad (o : SGD) : M unit :=
  p <- get_tensor (param o) ;;
  set_tensor (param o)
    (mkTensor (data p) (option_map (map (fun _ => vzero)) (grad p))).

(** [loss.backward()]: the gradient of the loss is accumulated on the
    [.grad] of the leaf of its graph. *)
Definition loss_backward (loss : loss_tensor) : M unit :=
  p <- get_tensor (leaf loss) ;;
  let g := map (grad_fn loss) (seq 0 (length (data p))) in
  set_tensor (leaf loss)
    (mkTensor (data p)
       (Some match grad p with
             | None => g
             | Some g0 => add g0 g
             end)).

(** [optimizer.step()] of SGD with momentum: the buffer starts as the
    gradient, later [buf = momentum * buf + grad], and the parameter is
    updated in place by [p = p - lr * buf]. *)
Definition optimizer_step (o : SGD) : M SGD :=
  p <- get_tensor (param o) ;;
  match grad p with
  | None => ret o
  | Some g =>
      let buf :=
        match momentum_buffer o with
        | None => g
        | Some b => add (mul_scalar b momentum) g
        end in
      set_tensor (param o)
        (mkTensor (add (data p) (mul_scalar buf (fneg lr))) (Some g)) ;;;
      ret (mkSGD (param o) (Some buf))
  end.

(** *** One iteration of the loop *)

(** [loss_chamfer * w_chamfer + loss_edge * w_edge + loss_normal * w_normal
    + loss_laplacian * w_laplacian] *)
Definition weighted_sum (loss_chamfer loss_edge loss_normal loss_laplacian : scalar)
  : scalar :=
  fadd (fadd (fadd (fmul loss_chamfer w_chamfer) (fmul loss_edge w_edge))
          (fmul loss_normal w_normal))
    (fmul loss_laplacian w_laplacian).

(** The body up to the plot: everything before [loss.backward()].  It
    returns the updated variables and the loss with its graph. *)
Definition forward_pass (src_mesh trg_mesh : ref) (i : nat) (v : vars)
  : M (vars * loss_tensor) :=
  zero_grad (optimizer v) ;;;
  new_src_mesh <- offset_verts src_mesh (deform_verts v) ;;
  rng0 <- get_rng ;;
  sample_trg <- sample trg_mesh 5000 ;;
  sample_src <- sample new_src_mesh 5000 ;;
  deformed <- read_mesh new_src_mesh ;;
  let loss_chamfer := chamfer_distance L sample_trg sample_src in
  let loss_edge := mesh_edge_loss L deformed in
  let loss_normal := mesh_normal_consistency L deformed in
  let loss_laplacian := mesh_laplacian_smoothing L deformed "uniform" in
  let loss := weighted_sum loss_chamfer loss_edge loss_normal loss_laplacian in
  set_description loss ;;;
  let v' :=
    mkVars (deform_verts v) (optimizer v)
      (chamfer_losses v ++ [loss_chamfer])
      (laplacian_losses v ++ [loss_laplacian])
      (edge_losses v ++ [loss_edge])
      (normal_losses v ++ [loss_normal])
      (Some new_src_mesh) in
  (if (i mod plot_period =? 0)%nat
   then plot_pointcloud new_src_mesh (IterTitle i)
   else ret tt) ;;;
  src <- read_mesh src_mesh ;;
  trg <- read_mesh trg_mesh ;;
  d <- get_tensor (deform_verts v) ;;
  ret (v', mkLoss loss (backward L src trg rng0 (data d)) (deform_verts v)).

Definition iteration (src_mesh trg_mesh : ref) (i : nat) (v : vars) : M vars :=
  r <- forward_pass src_mesh trg_mesh i v ;;
  loss_backward (snd r) ;;;
  o <- optimizer_step (optimizer (fst r)) ;;
  ret (mkVars (deform_verts (fst r)) o (chamfer_losses (fst r))
         (laplacian_losses (fst r)) (edge_losses (fst r))
         (normal_losses (fst r)) (new_src_mesh (fst r))).

(** [for i in range(n): body] *)
Fixpoint for_range (body : nat -> vars -> M vars) (range : list nat) (v : vars)
  : M vars :=
  match range with
  | [] => ret v
  | i :: range' => v' <- body i v ;; for_range body range' v'
  end.

(** *** The whole script *)

(** Cell 1: read the target, normalise it and build its mesh. *)
Definition load_target : M (normalized * ref) :=
  loaded <- load trg_obj ;;
  let faces_idx := snd loaded in
  n <- lift (normalize (fst loaded)) ;;
  trg_mesh <- new_mesh (mkMeshes (verts n) faces_idx) ;;
  ret (n, trg_mesh).

(** Cell 3, first part: the offsets, one zero row per source vertex, and
    the optimiser over them. *)
Definition init_vars (src_mesh : ref) : M vars :=
  src <- read_mesh src_mesh ;;
  deform_verts <-
    alloc (TensorObj (mkTensor (full (length (verts_packed src)) (Fin 0)) None)) ;;
  ret (mkVars deform_verts (mkSGD deform_verts None) [] [] [] [] None).

(** Cell 3, second part: the loop, for an iteration count [niter]. *)
Definition optimization_loop (src_mesh trg_mesh : ref) (niter : nat) (v : vars)
  : M vars :=
  for_range (iteration src_mesh trg_mesh) (seq 0 niter) v.

(** Cell 5: fetch the last deformed mesh, undo the normalisation and write
    the file. *)
Definition save_predicted (n : normalized) (v : vars) : M unit :=
  match new_src_mesh v with
  | None => raise (NameError "new_src_mesh")
  | Some r =>
      final <- get_mesh_verts_faces r 0 ;;
      let final_verts := denormalize (fst final) (scale n) (center n) in
      save_obj final_obj final_verts (snd final)
  end.

Definition script : M vars :=
  t <- load_target ;;
  let n := fst t in
  let trg_mesh := snd t in
  src_mesh <- new_mesh (ico_sphere L 4) ;;
  plot_pointcloud trg_mesh (Title "Target mesh") ;;;
  plot_pointcloud src_mesh (Title "Source mesh") ;;;
  v0 <- init_vars src_mesh ;;
  v <- optimization_loop src_mesh trg_mesh Niter v0 ;;
  show (LossCurves (chamfer_losses v) (edge_losses v) (normal_losses v)
          (laplacian_losses v)) ;;;
  save_predicted n v ;;;
  ret v.

(** *** The run of the script up to its loop

    For a world [w] in which the target loads with faces [faces_idx] and
    normalises to [n]: the references of the objects the set-up allocates,
    the world in which the loop starts, the variables it starts with, and
    the state after the first [k] iterations. *)

Definition trg_verts_ref (w : world L) : ref := length (heap w).
Definition trg_ref (w : world L) : ref := (1 + length (heap w))%nat.
Definition src_verts_ref (w : world L) : ref := (2 + length (heap w))%nat.
Definition src_ref (w : world L) : ref := (3 + length (heap w))%nat.
Definition deform_ref (w : world L) : ref := (4 + length (heap w))%nat.

Definition loop_start (w : world L) (n : normalized) (faces_idx : list face)
  : world L :=
  let trg := mkMeshes (verts n) faces_idx in
  let src := ico_sphere L 4 in
  mkWorld
    (heap w ++
       [TensorObj (mkTensor (verts n) None);
        MeshesObj (trg_verts_ref w) faces_idx;
        TensorObj (mkTensor (verts_packed src) None);
        MeshesObj (src_verts_ref w) (faces_packed src);
        TensorObj (mkTensor (full (length (verts_packed src)) (Fin 0)) None)])
    (files w)
    (figures w ++
       [scatter_of (Title "Target mesh") trg; scatter_of (Title "Source mesh") src])
    (descriptions w) (rng w).

Definition vars_start (w : world L) : vars :=
  mkVars (deform_ref w) (mkSGD (deform_ref w) None) [] [] [] [] None.

Definition state_after (w : world L) (n : normalized) (faces_idx : list face)
  (k : nat) : (exn + vars) * world L :=
  optimization_loop (src_ref w) (trg_ref w) k (vars_start w)
    (loop_start w n faces_idx).

End Script.

(** The four loss terms of one iteration, and their total. *)
Record loss_terms : Type := mkTerms {
  term_chamfer : scalar;
  term_edge : scalar;
  term_normal : scalar;
  term_laplacian : scalar
}.

Definition total_loss (x : loss_terms) : scalar :=
  weighted_sum (term_chamfer x) (term_edge x) (term_normal x) (term_laplacian x).

(** The offsets, their gradient and the momentum buffer all have one row
    per source vertex. *)
Definition shapes_ok (p : Tensor) (o : SGD) (nverts : nat) : Prop :=
  length (data p) = nverts /\
  (forall g, grad p = Some g -> length g = nverts) /\
  (forall b, momentum_buffer o = Some b -> length b = nverts).

(** The store [h] holds the source and target meshes [src] and [trg] with
    their vertex tensors, and the offsets [p] at [deform], which is a third
    tensor. *)
Definition layout (src_mesh src_verts trg_mesh trg_verts : ref) (src trg : Meshes)
  (h : list object) (deform : ref) (p : Tensor) : Prop :=
  nth_error h src_mesh = Some (MeshesObj src_verts (faces_packed src)) /\
  nth_error h src_verts = Some (TensorObj (mkTensor (verts_packed src) None)) /\
  nth_error h trg_mesh = Some (MeshesObj trg_verts (faces_packed trg)) /\
  nth_error h trg_verts = Some (TensorObj (mkTensor (verts_packed trg) None)) /\
  nth_error h deform = Some (TensorObj p) /\
  deform <> src_verts /\
  deform <> trg_verts.

(** One step of the optimiser on the offsets [p] with buffer [b], after the
    gradient [g] was accumulated: the new buffer and the new offsets. *)
Definition sgd_buffer (b : option tensor) (g : tensor) : tensor :=
  match b with
  | None => g
  | Some b0 => add (mul_scalar b0 momentum) g
  end.

Definition sgd_update (d : tensor) (buf : tensor) : tensor :=
  add d (mul_scalar buf (fneg lr)).

Arguments ret {L A}.
Arguments raise {L A}.
Arguments bind {L A B}.
Arguments lift {L A}.

(** ** A small instance of the library

    A reader that takes a stored OBJ file as it is, an octahedron in place
    of the subdivided sphere, a sampler that takes the first vertices and
    counts its calls, and simple stand-ins for the losses and the gradient.
    It serves to run the script on concrete worlds. *)

Module Toy.

Definition q3 (a b c : Q) : vec3 := V3 (Fin a) (Fin b) (Fin c).

Definition load_obj (fs : filesystem) (path : string) : exn + (tensor * list face) :=
  match read_file fs path with
  | Some (ObjFile v f) => inr (v, f)
  | Some (RawFile _) => inl (LoadError "malformed")
  | None => inl (LoadError "no such file")
  end.

Definition ico_sphere (level : nat) : Meshes :=
  mkMeshes
    [q3 1 0 0; q3 (-1) 0 0; q3 0 1 0; q3 0 (-1) 0; q3 0 0 1; q3 0 0 (-1)]
    [(0, 2, 4); (2, 1, 4); (1, 3, 4); (3, 0, 4);
     (2, 0, 5); (1, 2, 5); (3, 1, 5); (0, 3, 5)]%Z.

Definition sample_points_from_meshes (r : nat) (m : Meshes) (n : nat)
  : tensor * nat :=
  (firstn n (verts_packed m), S r).

Definition chamfer_distance (a b : tensor) : scalar :=
  vx (sum0 (map (vmap (fun x => fmul x x)) (zip_with (vmap2 fsub) a b))).

Definition mesh_edge_loss (m : Meshes) : scalar :=
  of_nat (length (faces_packed m)).

Definition mesh_normal_consistency (m : Meshes) : scalar := Fin 0.

Definition mesh_laplacian_smoothing (m : Meshes) (method : string) : scalar :=
  vy (sum0 (verts_packed m)).

Definition backward (src trg : Meshes) (r : nat) (d : tensor) (i : nat) : vec3 :=
  nth i (zip_with (vmap2 fsub) (add (verts_packed src) d) (verts_packed trg)) vzero.

Definition lib : library :=
  mkLibrary nat load_obj ico_sphere sample_points_from_meshes chamfer_distance
    mesh_edge_loss mesh_normal_consistency mesh_laplacian_smoothing backward.

(** A target of two vertices and one (degenerate) face. *)
Definition target_verts : tensor := [q3 0 0 0; q3 3 1 0].
Definition target_faces : list face := [(0, 1, 1)%Z].

(** What the normalisation makes of it. *)
Definition target_normalized : normalized :=
  Eval vm_compute in
    match normalize target_verts with
    | inr n => n
    | inl _ => Normalized vzero NaN []
    end.

Definition w0 : world lib :=
  @mkWorld lib [] [(trg_obj, ObjFile target_verts target_faces)] [] [] 0%nat.

(** A world without the input file. *)
Definition w_missing : world lib := @mkWorld lib [] [] [] [] 0%nat.

End Toy.


(** ** The loop read as a recurrence

    The body of the loop once more, this time as a function on values
    with no store: what one iteration computes from the offsets [d] and
    the generator state [r] it starts with, for a source mesh [src] and a
    target mesh [trg] -- the deformed mesh, the two samples (the target one
    is drawn first), the four loss terms, the gradient that
    [loss.backward()] leaves, and the offsets, gradient, momentum buffer
    and generator after the optimiser's step.  The script is not defined
    through it; it is what the run of the script over the store is compared
    with. *)

Section Recurrence.

Variable L : library.
Variables (src trg : Meshes).

Definition deformed (d : tensor) : Meshes :=
  mkMeshes (add (verts_packed src) d) (faces_packed src).

Definition draw_trg (r : rng_state L) : tensor * rng_state L :=
  sample_points_from_meshes L r trg 5000.

Definition draw_src (d : tensor) (r : rng_state L) : tensor * rng_state L :=
  sample_points_from_meshes L (snd (draw_trg r)) (deformed d) 5000.

Definition terms_of (d : tensor) (r : rng_state L) : loss_terms :=
  mkTerms
    (chamfer_distance L (fst (draw_trg r)) (fst (draw_src d r)))
    (mesh_edge_loss L (deformed d))
    (mesh_normal_consistency L (deformed d))
    (mesh_laplacian_smoothing L (deformed d) "uniform").

Definition gradient_of (d : tensor) (r : rng_state L) : tensor :=
  map (backward L src trg r d) (seq 0 (length d)).

Record opt_state : Type := mkOpt {
  offsets : tensor;
  last_grad : option tensor;
  buffer : option tensor;
  generator : rng_state L
}.

Definition opt_step (s : opt_state) : opt_state :=
  let g := gradient_of (offsets s) (generator s) in
  let buf := sgd_buffer (buffer s) g in
  mkOpt (sgd_update (offsets s) buf) (Some g) (Some buf)
    (snd (draw_src (offsets s) (generator s))).

Fixpoint opt_after (s0 : opt_state) (k : nat) : opt_state :=
  match k with
  | O => s0
  | S k' => opt_step (opt_after s0 k')
  end.

(** The plot that iteration [i] shows, if any. *)
Definition iteration_plot (i : nat) (d : tensor) : list figure :=
  if (i mod plot_period =? 0)%nat
  then [scatter_of (IterTitle i) (deformed d)]
  else [].

End Recurrence.

Arguments offsets {L}.
Arguments last_grad {L}.
Arguments buffer {L}.
Arguments generator {L}.
Arguments mkOpt {L}.

(** The recurrence of the script: it starts from zero offsets, no gradient,
    no momentum buffer and the generator of the initial world; [terms_at k]
    are the loss terms of iteration [k] and [plots_upto k] the plots of the
    iterations before [k].  The mesh built in iteration [k] and its vertex
    tensor are the two objects allocated after the five of the set-up and
    the two of each earlier iteration. *)

Definition opt_start (L : library) (w : world L) : opt_state L :=
  mkOpt (full (length (verts_packed (ico_sphere L 4))) (Fin 0)) None None (rng w).

Definition opt_state_at (L : library) (w : world L) (n : normalized)
  (faces_idx : list face) (k : nat) : opt_state L :=
  opt_after L (ico_sphere L 4) (mkMeshes (verts n) faces_idx) (opt_start L w) k.

Definition terms_at (L : library) (w : world L) (n : normalized)
  (faces_idx : list face) (k : nat) : loss_terms :=
  terms_of L (ico_sphere L 4) (mkMeshes (verts n) faces_idx)
    (offsets (opt_state_at L w n faces_idx k))
    (generator (opt_state_at L w n faces_idx k)).

Definition plots_upto (L : library) (w : world L) (n : normalized)
  (faces_idx : list face) (k : nat) : list figure :=
  flat_map
    (fun j =>
       iteration_plot (ico_sphere L 4) j (offsets (opt_state_at L w n faces_idx j)))
    (seq 0 k).

Definition mesh_verts_ref (L : library) (w : world L) (k : nat) : ref :=
  (2 * k + 5 + length (heap w))%nat.

Definition mesh_ref (L : library) (w : world L) (k : nat) : ref :=
  (2 * k + 6 + length (heap w))%nat.

(** * Properties *)

(** ** Entries and rows *)













(** ** Column sums and the mean *)




(** ** Centring, absolute values and maxima of finite tensors *)












(** ** The normalisation of a finite, non-empty vertex set *)





(** ** The normalised vertices when the scale is not zero *)


























(** ** Running the monad and reading the store *)

Section Running.

Variable L : library.

Lemma length_snoc {A : Type} (l : list A) (x : A) : length (l ++ [x]) = S (length l).
Proof. rewrite length_app; simpl; lia. Qed.

Lemma bind_run {A B : Type} (c : M L A) (k : A -> M L B) (w w' : world L) (a : A) :
  c w = (inr a, w') -> bind c k w = k a w'.
Proof. intros H; unfold bind; rewrite H; reflexivity. Qed.

Lemma bind_fail {A B : Type} (c : M L A) (k : A -> M L B) (w w' : world L) (e : exn) :
  c w = (inl e, w') -> bind c k w = (inl e, w').
Proof. intros H; unfold bind; rewrite H; reflexivity. Qed.

Lemma bind_assoc {A B C : Type} (c : M L A) (k1 : A -> M L B) (k2 : B -> M L C)
  (w : world L) :
  bind (bind c k1) k2 w = bind c (fun a => bind (k1 a) k2) w.
Proof. unfold bind; destruct (c w) as [[e | a] w1]; reflexivity. Qed.

Lemma for_range_app (body : nat -> vars -> M L vars) (l1 l2 : list nat) :
  forall v w,
    for_range L body (l1 ++ l2) v w =
    match for_range L body l1 v w with
    | (inl e, w') => (inl e, w')
    | (inr v', w') => for_range L body l2 v' w'
    end.
Proof.
  induction l1 as [| i l1 IH]; intros v w.
  - reflexivity.
  - simpl; unfold bind; destruct (body i v w) as [[e | v'] w']; [reflexivity | apply IH].
Qed.

Lemma zip_with_length (f : vec3 -> vec3 -> vec3) (a : tensor) :
  forall b, length a = length b -> length (zip_with f a b) = length a.
Proof.
  induction a as [| x a IH]; intros [| y b] H; simpl in *; try congruence.
  rewrite IH; congruence.
Qed.

Lemma add_length (a b : tensor) (n : nat) :
  length a = n -> length b = n -> length (add a b) = n.
Proof. intros Ha Hb; unfold add; rewrite zip_with_length; congruence. Qed.

Lemma mul_scalar_length (t : tensor) (s : scalar) :
  length (mul_scalar t s) = length t.
Proof. unfold mul_scalar; apply length_map. Qed.


(** *** The store *)

Lemma length_update_at (h : list object) :
  forall r o, length (update_at h r o) = length h.
Proof.
  induction h as [| x h IH]; intros [| r] o; simpl; try reflexivity.
  rewrite IH; reflexivity.
Qed.

Lemma lookup_update_eq (h : list object) :
  forall r o, (r < length h)%nat -> nth_error (update_at h r o) r = Some o.
Proof.
  induction h as [| x h IH]; intros [| r] o Hr; simpl in *; try lia; try reflexivity.
  apply IH; lia.
Qed.

Lemma lookup_update_ne (h : list object) :
  forall r r' o, r <> r' -> nth_error (update_at h r o) r' = nth_error h r'.
Proof.
  induction h as [| x h IH]; intros [| r] [| r'] o Hne; simpl; try reflexivity;
    try congruence.
  apply IH; congruence.
Qed.

Lemma lookup_app_l (h l : list object) (r : ref) :
  (r < length h)%nat -> nth_error (h ++ l) r = nth_error h r.
Proof. apply nth_error_app1. Qed.

Lemma lookup_new (h : list object) (o : object) (r : ref) :
  r = length h -> nth_error (h ++ [o]) r = Some o.
Proof. intros ->; rewrite nth_error_app2, Nat.sub_diag by lia; reflexivity. Qed.

Lemma lookup_lt (h : list object) (r : ref) (o : object) :
  nth_error h r = Some o -> (r < length h)%nat.
Proof. intros H; apply nth_error_Some; congruence. Qed.

(** *** The primitives *)

Lemma get_tensor_run (r : ref) (t : Tensor) (w : world L) :
  nth_error (heap w) r = Some (TensorObj t) -> get_tensor L r w = (inr t, w).
Proof. intros H; unfold get_tensor; rewrite H; reflexivity. Qed.

Lemma get_meshes_run (r v : ref) (f : list face) (w : world L) :
  nth_error (heap w) r = Some (MeshesObj v f) -> get_meshes L r w = (inr (v, f), w).
Proof. intros H; unfold get_meshes; rewrite H; reflexivity. Qed.

Lemma set_tensor_run (r : ref) (t0 t : Tensor) (w : world L) :
  nth_error (heap w) r = Some (TensorObj t0) ->
  set_tensor L r t w =
  (inr tt,
   mkWorld (update_at (heap w) r (TensorObj t)) (files w) (figures w)
     (descriptions w) (rng w)).
Proof. intros H; unfold set_tensor; rewrite H; reflexivity. Qed.

Lemma read_mesh_run (r v : ref) (f : list face) (t : Tensor) (w : world L) :
  nth_error (heap w) r = Some (MeshesObj v f) ->
  nth_error (heap w) v = Some (TensorObj t) ->
  read_mesh L r w = (inr (mkMeshes (data t) f), w).
Proof.
  intros Hm Ht; unfold read_mesh.
  rewrite (bind_run _ _ _ _ _ (get_meshes_run _ _ _ _ Hm)); cbn [fst snd].
  rewrite (bind_run _ _ _ _ _ (get_tensor_run _ _ _ Ht)); reflexivity.
Qed.

Lemma sample_run (r v : ref) (f : list face) (t : Tensor) (n : nat) (w : world L) :
  nth_error (heap w) r = Some (MeshesObj v f) ->
  nth_error (heap w) v = Some (TensorObj t) ->
  sample L r n w =
  (inr (fst (sample_points_from_meshes L (rng w) (mkMeshes (data t) f) n)),
   mkWorld (heap w) (files w) (figures w) (descriptions w)
     (snd (sample_points_from_meshes L (rng w) (mkMeshes (data t) f) n))).
Proof.
  intros Hm Ht; unfold sample.
  rewrite (bind_run _ _ _ _ _ (read_mesh_run _ _ _ _ _ Hm Ht)).
  destruct (sample_points_from_meshes L (rng w) _ n); reflexivity.
Qed.

Lemma plot_pointcloud_run (r v : ref) (f : list face) (t : Tensor) (ti : title)
  (w : world L) :
  nth_error (heap w) r = Some (MeshesObj v f) ->
  nth_error (heap w) v = Some (TensorObj t) ->
  plot_pointcloud L r ti w =
  (inr tt,
   mkWorld (heap w) (files w)
     (figures w ++ [scatter_of ti (mkMeshes (data t) f)]) (descriptions w)
     (rng w)).
Proof.
  intros Hm Ht; unfold plot_pointcloud.
  rewrite (bind_run _ _ _ _ _ (read_mesh_run _ _ _ _ _ Hm Ht)); reflexivity.
Qed.

Lemma new_mesh_run (m : Meshes) (w : world L) :
  new_mesh L m w =
  (inr (S (length (heap w))),
   mkWorld
     ((heap w ++ [TensorObj (mkTensor (verts_packed m) None)]) ++
        [MeshesObj (length (heap w)) (faces_packed m)])
     (files w) (figures w) (descriptions w) (rng w)).
Proof.
  unfold new_mesh, bind, alloc; cbn [heap files figures descriptions rng].
  rewrite length_snoc; reflexivity.
Qed.

Lemma offset_verts_run (r v offsets : ref) (f : list face) (t d : Tensor)
  (w : world L) :
  nth_error (heap w) r = Some (MeshesObj v f) ->
  nth_error (heap w) v = Some (TensorObj t) ->
  nth_error (heap w) offsets = Some (TensorObj d) ->
  offset_verts L r offsets w =
  (inr (S (length (heap w))),
   mkWorld
     ((heap w ++ [TensorObj (mkTensor (add (data t) (data d)) None)]) ++
        [MeshesObj (length (heap w)) f])
     (files w) (figures w) (descriptions w) (rng w)).
Proof.
  intros Hm Ht Hd; unfold offset_verts.
  rewrite (bind_run _ _ _ _ _ (read_mesh_run _ _ _ _ _ Hm Ht)).
  rewrite (bind_run _ _ _ _ _ (get_tensor_run _ _ _ Hd)).
  apply new_mesh_run.
Qed.

Lemma zero_grad_run (o : SGD) (p : Tensor) (w : world L) :
  nth_error (heap w) (param o) = Some (TensorObj p) ->
  zero_grad L o w =
  (inr tt,
   mkWorld
     (update_at (heap w) (param o)
        (TensorObj (mkTensor (data p) (option_map (map (fun _ => vzero)) (grad p)))))
     (files w) (figures w) (descriptions w) (rng w)).
Proof.
  intros Hp; unfold zero_grad.
  rewrite (bind_run _ _ _ _ _ (get_tensor_run _ _ _ Hp)).
  apply (set_tensor_run _ p), Hp.
Qed.

Lemma loss_backward_run (loss : loss_tensor) (p : Tensor) (w : world L) :
  nth_error (heap w) (leaf loss) = Some (TensorObj p) ->
  loss_backward L loss w =
  (inr tt,
   mkWorld
     (update_at (heap w) (leaf loss)
        (TensorObj
           (mkTensor (data p)
              (Some match grad p with
                    | None => map (grad_fn loss) (seq 0 (length (data p)))
                    | Some g0 => add g0 (map (grad_fn loss) (seq 0 (length (data p))))
                    end))))
     (files w) (figures w) (descriptions w) (rng w)).
Proof.
  intros Hp; unfold loss_backward.
  rewrite (bind_run _ _ _ _ _ (get_tensor_run _ _ _ Hp)).
  apply (set_tensor_run _ p), Hp.
Qed.

Lemma optimizer_step_run (o : SGD) (d g : tensor) (w : world L) :
  nth_error (heap w) (param o) = Some (TensorObj (mkTensor d (Some g))) ->
  optimizer_step L o w =
  (inr (mkSGD (param o) (Some (sgd_buffer (momentum_buffer o) g))),
   mkWorld
     (update_at (heap w) (param o)
        (TensorObj
           (mkTensor (sgd_update d (sgd_buffer (momentum_buffer o) g)) (Some g))))
     (files w) (figures w) (descriptions w) (rng w)).
Proof.
  intros Hp; unfold optimizer_step.
  rewrite (bind_run _ _ _ _ _ (get_tensor_run _ _ _ Hp)); cbn [grad data].
  rewrite (bind_run _ _ _ _ _ (set_tensor_run _ _ _ _ Hp)); reflexivity.
Qed.

End Running.

Ltac len :=
  repeat first [ rewrite length_app | rewrite length_update_at ]; simpl; lia.

Ltac lookup :=
  cbn [heap];
  repeat first
    [ rewrite lookup_new by len
    | rewrite lookup_update_eq by len
    | rewrite lookup_update_ne by len
    | rewrite lookup_app_l by len ];
  first [ eassumption | reflexivity | rewrite !length_update_at; reflexivity ].

Ltac run_step :=
  rewrite ?bind_assoc;
  erewrite bind_run by
    first [ eapply offset_verts_run; [lookup | lookup | lookup]
          | eapply zero_grad_run; [lookup]
          | eapply loss_backward_run; [lookup]
          | eapply optimizer_step_run; [lookup]
          | eapply sample_run; [lookup | lookup]
          | eapply plot_pointcloud_run; [lookup | lookup]
          | eapply read_mesh_run; [lookup | lookup]
          | eapply get_tensor_run; [lookup]
          | apply new_mesh_run
          | reflexivity ];
  cbn [heap files figures descriptions rng fst snd param momentum_buffer data grad
       leaf grad_fn loss_value deform_verts optimizer chamfer_losses
       laplacian_losses edge_losses normal_losses new_src_mesh verts_packed
       faces_packed].

(** ** The loop *)

Section Loop.

Variable L : library.
Variables (src_mesh src_verts trg_mesh trg_verts : ref).
Variables (src trg : Meshes).

Local Notation layout_of :=
  (layout src_mesh src_verts trg_mesh trg_verts src trg).

Ltac shape :=
  repeat first
    [ assumption
    | apply add_length
    | rewrite mul_scalar_length
    | rewrite length_map
    | rewrite length_seq ].

(** *** One forward pass *)


(** *** One iteration *)

Lemma iteration_run (i : nat) (v : vars) (w : world L) (p : Tensor) (nverts : nat) :
  layout_of (heap w) (deform_verts v) p ->
  param (optimizer v) = deform_verts v ->
  shapes_ok p (optimizer v) nverts ->
  exists v' w' x p' buf,
    iteration L src_mesh trg_mesh i v w = (inr v', w') /\
    layout_of (heap w') (deform_verts v) p' /\
    length (heap w') = (2 + length (heap w))%nat /\
    (forall r, (r < length (heap w))%nat -> r <> deform_verts v ->
       nth_error (heap w') r = nth_error (heap w) r) /\
    nth_error (heap w') (length (heap w)) =
      Some (TensorObj (mkTensor (add (verts_packed src) (data p)) None)) /\
    nth_error (heap w') (S (length (heap w))) =
      Some (MeshesObj (length (heap w)) (faces_packed src)) /\
    new_src_mesh v' = Some (S (length (heap w))) /\
    deform_verts v' = deform_verts v /\
    param (optimizer v') = deform_verts v /\
    momentum_buffer (optimizer v') = Some buf /\
    data p' = sgd_update (data p) buf /\
    shapes_ok p' (optimizer v') nverts /\
    files w' = files w /\
    descriptions w' = descriptions w ++ [total_loss x] /\
    chamfer_losses v' = chamfer_losses v ++ [term_chamfer x] /\
    edge_losses v' = edge_losses v ++ [term_edge x] /\
    normal_losses v' = normal_losses v ++ [term_normal x] /\
    laplacian_losses v' = laplacian_losses v ++ [term_laplacian x].
Proof.
  destruct v as [d [pr b] cl ll el nl nm]; destruct p as [pd pg].
  cbn [deform_verts optimizer param momentum_buffer chamfer_losses laplacian_losses
       edge_losses normal_losses new_src_mesh data grad].
  unfold shapes_ok; cbn [data grad momentum_buffer].
  intros (Hsm & Hst & Htm & Htt & Hd & Hne1 & Hne2) -> (Sd & Sg & Sb).
  pose proof (lookup_lt _ _ _ Hsm) as Lsm.
  pose proof (lookup_lt _ _ _ Hst) as Lst.
  pose proof (lookup_lt _ _ _ Htm) as Ltm.
  pose proof (lookup_lt _ _ _ Htt) as Ltt.
  pose proof (lookup_lt _ _ _ Hd) as Ld.
  assert (Hne3 : d <> src_mesh) by congruence.
  assert (Hne4 : d <> trg_mesh) by congruence.
  unfold iteration, forward_pass.
  cbn [deform_verts optimizer param momentum_buffer chamfer_losses laplacian_losses
       edge_losses normal_losses new_src_mesh].
  assert (Hg : forall gf : nat -> vec3,
             length match option_map (map (fun _ : vec3 => vzero)) pg with
                    | Some g0 => add g0 (map gf (seq 0 (length pd)))
                    | None => map gf (seq 0 (length pd))
                    end = nverts).
  { intros gf; destruct pg as [g0 |]; cbn [option_map]; shape.
    apply Sg; reflexivity. }
  assert (Hb : forall g, length g = nverts -> length (sgd_buffer b g) = nverts).
  { intros g Hlen; unfold sgd_buffer; destruct b as [b0 |]; shape.
    apply Sb; reflexivity. }
  do 7 run_step.
  destruct (i mod plot_period =? 0)%nat; do 7 run_step; unfold ret;
    (eexists _, _, (mkTerms _ _ _ _), (mkTensor _ _), _;
     split; [reflexivity |];
     cbn [heap files figures descriptions rng param momentum_buffer data grad
          deform_verts optimizer chamfer_losses laplacian_losses edge_losses
          normal_losses new_src_mesh term_chamfer term_edge term_normal
          term_laplacian];
     split; [unfold layout; do 5 (split; [lookup |]); split; assumption |];
     split; [len |];
     split; [intros r Hr Hner; lookup |];
     split; [lookup |];
     split; [lookup |];
     split; [rewrite length_update_at; reflexivity |];
     split; [reflexivity |];
     split; [reflexivity |];
     split; [reflexivity |];
     split; [reflexivity |];
     split;
       [ unfold shapes_ok, sgd_update; cbn [data grad momentum_buffer];
         repeat split;
           [ shape; apply Hb, Hg
           | intros g0 H0; injection H0 as <-; apply Hg
           | intros b0 H0; injection H0 as <-; apply Hb, Hg ] |];
     repeat (split; [reflexivity |]); reflexivity).
Qed.

(** *** Any number of iterations *)

Lemma loop_run (nverts : nat) (range : list nat) :
  forall v w p,
    layout_of (heap w) (deform_verts v) p ->
    param (optimizer v) = deform_verts v ->
    shapes_ok p (optimizer v) nverts ->
    exists v' w' p' xs,
      for_range L (iteration L src_mesh trg_mesh) range v w = (inr v', w') /\
      layout_of (heap w') (deform_verts v) p' /\
      length (heap w') = (2 * length range + length (heap w))%nat /\
      (forall r, (r < length (heap w))%nat -> r <> deform_verts v ->
         nth_error (heap w') r = nth_error (heap w) r) /\
      deform_verts v' = deform_verts v /\
      param (optimizer v') = deform_verts v /\
      shapes_ok p' (optimizer v') nverts /\
      length xs = length range /\
      files w' = files w /\
      descriptions w' = descriptions w ++ map total_loss xs /\
      chamfer_losses v' = chamfer_losses v ++ map term_chamfer xs /\
      edge_losses v' = edge_losses v ++ map term_edge xs /\
      normal_losses v' = normal_losses v ++ map term_normal xs /\
      laplacian_losses v' = laplacian_losses v ++ map term_laplacian xs.
Proof.
  induction range as [| i range IH]; intros v w p Hlay Hopt Hshape.
  - exists v, w, p, []; simpl; rewrite !app_nil_r.
    repeat (split; [first [reflexivity | assumption] |]); reflexivity.
  - destruct (iteration_run i v w p nverts Hlay Hopt Hshape)
      as (v1 & w1 & x & p1 & buf & Hrun & Hlay1 & Hlen1 & Hframe1 & _ & _ & _ & Hd1
          & Hopt1 & _ & _ & Hshape1 & Hfiles & Hdesc & Hc & He & Hn & Hl).
    rewrite <- Hd1 in Hlay1, Hopt1.
    destruct (IH v1 w1 p1 Hlay1 Hopt1 Hshape1)
      as (v' & w' & p' & xs & Hrun' & Hlay' & Hlen' & Hframe' & Hd' & Hopt' & Hshape'
          & Hlenx & Hfiles' & Hdesc' & Hc' & He' & Hn' & Hl').
    exists v', w', p', (x :: xs).
    simpl for_range; rewrite (bind_run _ _ _ _ _ _ Hrun).
    split; [exact Hrun' |].
    rewrite Hd1 in *.
    split; [exact Hlay' |].
    split; [rewrite Hlen', Hlen1; simpl; lia |].
    split.
    { intros r Hr Hne; rewrite Hframe' by (rewrite ?Hlen1; lia || assumption).
      apply Hframe1; assumption. }
    rewrite Hfiles', Hfiles, Hdesc', Hdesc, Hc', Hc, He', He, Hn', Hn, Hl', Hl.
    simpl; rewrite <- !app_assoc; simpl.
    repeat (split; [first [reflexivity | assumption | congruence] |]).
    reflexivity.
Qed.

End Loop.

(** ** The script *)

Section ScriptRun.

Variable L : library.
Variables (w : world L) (n : normalized) (faces_idx : list face).

Local Notation layout_s :=
  (layout (src_ref L w) (src_verts_ref L w) (trg_ref L w) (trg_verts_ref L w)
     (ico_sphere L 4) (mkMeshes (verts n) faces_idx)).

Lemma lookup_app_r (h l : list object) (k : nat) :
  nth_error (h ++ l) (k + length h) = nth_error l k.
Proof. rewrite nth_error_app2 by lia; f_equal; lia. Qed.

Lemma loop_start_layout :
  layout_s (heap (loop_start L w n faces_idx)) (deform_ref L w)
    (mkTensor (full (length (verts_packed (ico_sphere L 4))) (Fin 0)) None).
Proof.
  unfold layout, loop_start, src_ref, src_verts_ref, trg_ref, trg_verts_ref,
    deform_ref; cbn [heap verts_packed faces_packed].
  split; [exact (lookup_app_r (heap w) _ 3) |].
  split; [exact (lookup_app_r (heap w) _ 2) |].
  split; [exact (lookup_app_r (heap w) _ 1) |].
  split; [exact (lookup_app_r (heap w) _ 0) |].
  split; [exact (lookup_app_r (heap w) _ 4) |].
  split; lia.
Qed.

Lemma vars_start_shapes :
  shapes_ok (mkTensor (full (length (verts_packed (ico_sphere L 4))) (Fin 0)) None)
    (optimizer (vars_start L w)) (length (verts_packed (ico_sphere L 4))).
Proof.
  unfold shapes_ok, vars_start, full; cbn; rewrite repeat_length.
  repeat split; intros; discriminate.
Qed.

(** The script, once the target has loaded and normalised: the set-up, the
    loop, the loss curves and the export. *)
Lemma script_run (verts0 : tensor) :
  load_obj L (files w) trg_obj = inr (verts0, faces_idx) ->
  normalize verts0 = inr n ->
  script L w =
  match state_after L w n faces_idx Niter with
  | (inl e, w1) => (inl e, w1)
  | (inr v, w1) =>
      bind (show L (LossCurves (chamfer_losses v) (edge_losses v)
                      (normal_losses v) (laplacian_losses v)))
        (fun _ => bind (save_predicted L n v) (fun _ => ret v)) w1
  end.
Proof.
  intros Hload Hnorm.
  unfold script, load_target.
  assert (H1 : load L trg_obj w = (inr (verts0, faces_idx), w))
    by (unfold load; rewrite Hload; reflexivity).
  rewrite !bind_assoc, (bind_run _ _ _ _ _ _ H1); cbn [fst snd].
  assert (H2 : lift (normalize verts0) w = (inr n, w))
    by (unfold lift; rewrite Hnorm; reflexivity).
  rewrite !bind_assoc, (bind_run _ _ _ _ _ _ H2).
  do 5 run_step.
  unfold init_vars.
  do 3 run_step.
  rewrite !length_snoc, <- !app_assoc.
  unfold bind at 1.
  unfold state_after, loop_start, vars_start, src_ref, trg_ref, deform_ref,
    src_verts_ref, trg_verts_ref, scatter_of.
  cbn [app verts_packed faces_packed Nat.add].
  reflexivity.
Qed.


Local Notation nverts := (length (verts_packed (ico_sphere L 4))).

(** The state after [k] iterations: the meshes are where the set-up put
    them, the offsets are still the object at [deform_ref] that both the
    script and the optimiser name, two objects were allocated per
    iteration, no file was touched, and each history and the progress bar
    hold one entry per iteration. *)
Lemma state_after_ok (k : nat) :
  exists vk wk pk xs,
    state_after L w n faces_idx k = (inr vk, wk) /\
    layout_s (heap wk) (deform_ref L w) pk /\
    length (heap wk) = (2 * k + length (heap (loop_start L w n faces_idx)))%nat /\
    (forall r, (r < length (heap (loop_start L w n faces_idx)))%nat ->
       r <> deform_ref L w ->
       nth_error (heap wk) r = nth_error (heap (loop_start L w n faces_idx)) r) /\
    deform_verts vk = deform_ref L w /\
    param (optimizer vk) = deform_ref L w /\
    shapes_ok pk (optimizer vk) nverts /\
    length xs = k /\
    files wk = files w /\
    descriptions wk = descriptions w ++ map total_loss xs /\
    chamfer_losses vk = map term_chamfer xs /\
    edge_losses vk = map term_edge xs /\
    normal_losses vk = map term_normal xs /\
    laplacian_losses vk = map term_laplacian xs.
Proof.
  unfold state_after, optimization_loop.
  destruct (loop_run L _ _ _ _ _ _ nverts (seq 0 k) (vars_start L w) _ _
              loop_start_layout eq_refl vars_start_shapes)
    as (vk & wk & pk & xs & Hrun & Hlay & Hlen & Hframe & Hd & Hopt & Hshape & Hlenx
        & Hfiles & Hdesc & Hc & He & Hn & Hl).
  rewrite length_seq in Hlen, Hlenx.
  exists vk, wk, pk, xs.
  repeat (split; [assumption |]); assumption.
Qed.

Lemma state_after_succ (k : nat) :
  state_after L w n faces_idx (S k) =
  match state_after L w n faces_idx k with
  | (inl e, wk) => (inl e, wk)
  | (inr vk, wk) => iteration L (src_ref L w) (trg_ref L w) k vk wk
  end.
Proof.
  unfold state_after, optimization_loop.
  rewrite seq_S, for_range_app; simpl.
  destruct (for_range L _ (seq 0 k) _ _) as [[e | vk] wk]; [reflexivity |].
  unfold bind, ret.
  destruct (iteration L _ _ k vk wk) as [[e | v'] w']; reflexivity.
Qed.

Lemma state_after_add (k m : nat) :
  state_after L w n faces_idx (k + m) =
  match state_after L w n faces_idx k with
  | (inl e, wk) => (inl e, wk)
  | (inr vk, wk) =>
      for_range L (iteration L (src_ref L w) (trg_ref L w)) (seq k m) vk wk
  end.
Proof.
  unfold state_after, optimization_loop.
  rewrite seq_app, for_range_app; reflexivity.
Qed.

(** Iteration [k], seen from the states before and after it. *)
Lemma state_after_step (k : nat) :
  exists vk wk pk v' w' p' x buf,
    state_after L w n faces_idx k = (inr vk, wk) /\
    state_after L w n faces_idx (S k) = (inr v', w') /\
    layout_s (heap wk) (deform_ref L w) pk /\
    layout_s (heap w') (deform_ref L w) p' /\
    length (data pk) = nverts /\
    length (heap w') = (2 + length (heap wk))%nat /\
    (forall r, (r < length (heap wk))%nat -> r <> deform_ref L w ->
       nth_error (heap w') r = nth_error (heap wk) r) /\
    nth_error (heap w') (length (heap wk)) =
      Some (TensorObj
              (mkTensor (add (verts_packed (ico_sphere L 4)) (data pk)) None)) /\
    nth_error (heap w') (S (length (heap wk))) =
      Some (MeshesObj (length (heap wk)) (faces_packed (ico_sphere L 4))) /\
    new_src_mesh v' = Some (S (length (heap wk))) /\
    deform_verts vk = deform_ref L w /\
    deform_verts v' = deform_ref L w /\
    data p' = sgd_update (data pk) buf /\
    files w' = files w /\
    descriptions w' = descriptions wk ++ [total_loss x] /\
    chamfer_losses v' = chamfer_losses vk ++ [term_chamfer x] /\
    edge_losses v' = edge_losses vk ++ [term_edge x] /\
    normal_losses v' = normal_losses vk ++ [term_normal x] /\
    laplacian_losses v' = laplacian_losses vk ++ [term_laplacian x].
Proof.
  destruct (state_after_ok k)
    as (vk & wk & pk & xs & Hk & Hlay & _ & _ & Hd & Hopt & Hshape & _ & Hfiles & _).
  rewrite <- Hd in Hlay, Hopt.
  destruct (iteration_run L _ _ _ _ _ _ k vk wk pk nverts Hlay Hopt Hshape)
    as (v' & w' & x & p' & buf & Hrun & Hlay' & Hlen' & Hframe' & Hnt & Hnm & Hnew
        & Hd' & _ & _ & Hdata & _ & Hfiles' & Hdesc' & Hc & He & Hn & Hl).
  rewrite Hd in *.
  exists vk, wk, pk, v', w', p', x, buf.
  rewrite state_after_succ, Hk.
  destruct Hshape as (Hsd & _).
  repeat (split; [first [assumption | reflexivity | congruence] |]); assumption.
Qed.

(** Two states of the loop, [m] iterations apart. *)
Lemma state_after_prefix (k m : nat) :
  exists vk wk v' w' xs,
    state_after L w n faces_idx k = (inr vk, wk) /\
    state_after L w n faces_idx (k + m) = (inr v', w') /\
    length (chamfer_losses vk) = k /\
    length (edge_losses vk) = k /\
    length (normal_losses vk) = k /\
    length (laplacian_losses vk) = k /\
    length xs = m /\
    chamfer_losses v' = chamfer_losses vk ++ map term_chamfer xs /\
    edge_losses v' = edge_losses vk ++ map term_edge xs /\
    normal_losses v' = normal_losses vk ++ map term_normal xs /\
    laplacian_losses v' = laplacian_losses vk ++ map term_laplacian xs.
Proof.
  destruct (state_after_ok k)
    as (vk & wk & pk & xs & Hk & Hlay & _ & _ & Hd & Hopt & Hshape & Hlenx & _ & _
        & Hc & He & Hn & Hl).
  rewrite <- Hd in Hlay, Hopt.
  destruct (loop_run L _ _ _ _ _ _ nverts (seq k m) vk wk pk Hlay Hopt Hshape)
    as (v' & w' & p' & xs' & Hrun & _ & _ & _ & _ & _ & _ & Hlenx' & _ & _
        & Hc' & He' & Hn' & Hl').
  rewrite length_seq in Hlenx'.
  exists vk, wk, v', w', xs'.
  rewrite state_after_add, Hk, Hc, He, Hn, Hl, !length_map.
  repeat (split; [first [assumption | congruence] |]); congruence.
Qed.

(** The whole run, once the target has loaded and normalised: the loop
    ends in the state after [Niter] iterations, and the export writes the
    mesh built in the last iteration from the offsets of the state before
    it. *)
Lemma script_ok (verts0 : tensor) :
  load_obj L (files w) trg_obj = inr (verts0, faces_idx) ->
  normalize verts0 = inr n ->
  exists vk wk pk v w1 p' buf,
    state_after L w n faces_idx (Niter - 1) = (inr vk, wk) /\
    state_after L w n faces_idx Niter = (inr v, w1) /\
    layout_s (heap wk) (deform_ref L w) pk /\
    layout_s (heap w1) (deform_ref L w) p' /\
    deform_verts vk = deform_ref L w /\
    deform_verts v = deform_ref L w /\
    data p' = sgd_update (data pk) buf /\
    new_src_mesh v = Some (S (length (heap wk))) /\
    nth_error (heap w1) (length (heap wk)) =
      Some (TensorObj
              (mkTensor (add (verts_packed (ico_sphere L 4)) (data pk)) None)) /\
    nth_error (heap w1) (S (length (heap wk))) =
      Some (MeshesObj (length (heap wk)) (faces_packed (ico_sphere L 4))) /\
    script L w =
      (inr v,
       mkWorld (heap w1)
         (write_file (files w) final_obj
            (ObjFile
               (denormalize (add (verts_packed (ico_sphere L 4)) (data pk))
                  (scale n) (center n))
               (faces_packed (ico_sphere L 4))))
         (figures w1 ++
            [LossCurves (chamfer_losses v) (edge_losses v) (normal_losses v)
               (laplacian_losses v)])
         (descriptions w1) (rng w1)).
Proof.
  intros Hload Hnorm.
  destruct (state_after_step (Niter - 1))
    as (vk & wk & pk & v & w1 & p' & x & buf & Hprev & Hlast & Hlay & Hlay' & _ & _
        & _ & Hnt & Hnm & Hnew & Hdk & Hdv & Hdata & Hfiles & _).
  change (S (Niter - 1)) with Niter in Hlast.
  exists vk, wk, pk, v, w1, p', buf.
  repeat (split; [assumption |]).
  rewrite (script_run verts0 Hload Hnorm), Hlast.
  run_step.
  unfold save_predicted; rewrite Hnew.
  unfold get_mesh_verts_faces.
  do 2 run_step.
  rewrite <- Hfiles; reflexivity.
Qed.

End ScriptRun.

(** ** What the script guarantees *)

(** C8: nothing catches a failure of [load_obj]: the script dies of the
    same exception, in the world it started in -- no object in the store,
    no figure, no progress and no output file. *)
Theorem load_failure_aborts (L : library) (w : world L) (e : exn) :
  load_obj L (files w) trg_obj = inl e ->
  script L w = (inl e, w).
Proof.
  intros Hload; unfold script, load_target.
  assert (H : load L trg_obj w = (inl e, w))
    by (unfold load; rewrite Hload; reflexivity).
  rewrite !bind_assoc; apply bind_fail, H.
Qed.

Lemma load_failure_aborts_witness :
  script Toy.lib Toy.w_missing = (inl (LoadError "no such file"), Toy.w_missing).
Proof. apply (load_failure_aborts Toy.lib Toy.w_missing); reflexivity. Defined.

(** X5: a target without vertices loads, but the column maximum raises
    and the script dies there of [EmptyReduction], in the world it started
    in: before any mesh, figure or file is created. *)
Lemma empty_target_aborts (L : library) (w : world L) (faces_idx : list face) :
  load_obj L (files w) trg_obj = inr ([], faces_idx) ->
  script L w = (inl EmptyReduction, w).
Proof.
  intros Hload; unfold script, load_target.
  assert (H : load L trg_obj w = (inr ([], faces_idx), w))
    by (unfold load; rewrite Hload; reflexivity).
  rewrite !bind_assoc, (bind_run _ _ _ _ _ _ H); cbn [fst snd].
  apply bind_fail; reflexivity.
Qed.

Lemma empty_target_aborts_witness :
  script Toy.lib
    (@mkWorld Toy.lib [] [(trg_obj, ObjFile [] Toy.target_faces)] [] [] 0%nat) =
  (inl EmptyReduction,
   @mkWorld Toy.lib [] [(trg_obj, ObjFile [] Toy.target_faces)] [] [] 0%nat).
Proof.
  apply (empty_target_aborts Toy.lib _ Toy.target_faces); reflexivity.
Defined.

Lemma read_mesh_value (L : library) (w : world L) (r v : ref) (m : Meshes) :
  nth_error (heap w) r = Some (MeshesObj v (faces_packed m)) ->
  nth_error (heap w) v = Some (TensorObj (mkTensor (verts_packed m) None)) ->
  read_mesh L r w = (inr m, w).
Proof.
  intros Hm Ht; rewrite (read_mesh_run L _ _ _ _ _ Hm Ht).
  destruct m; reflexivity.
Qed.


Lemma nth_map_NaN {A : Type} (f : A -> scalar) (xs : list A) (d : A) (i : nat) :
  (i < length xs)%nat -> nth i (map f xs) NaN = f (nth i xs d).
Proof.
  intros Hi; rewrite (nth_indep _ NaN (f d)) by (rewrite length_map; exact Hi).
  apply map_nth.
Qed.

(** C4: in a run that gets past loading and normalisation, the loss shown
    on the progress bar in iteration [i] is the chamfer term times 1.0 plus
    the edge term times 1.0 plus the normal term times 0.01 plus the
    Laplacian term times 0.1, for every one of the [Niter] iterations. *)
Theorem total_loss_is_weighted_sum (L : library) (w : world L) (verts0 : tensor)
  (faces_idx : list face) (n : normalized) :
  load_obj L (files w) trg_obj = inr (verts0, faces_idx) ->
  normalize verts0 = inr n ->
  exists v w' ds,
    script L w = (inr v, w') /\
    descriptions w' = descriptions w ++ ds /\
    length ds = Niter /\
    forall i, (i < Niter)%nat ->
      nth i ds NaN =
      fadd (fadd (fadd (fmul (nth i (chamfer_losses v) NaN) (Fin 1))
                    (fmul (nth i (edge_losses v) NaN) (Fin 1)))
              (fmul (nth i (normal_losses v) NaN) (Fin (1 # 100))))
        (fmul (nth i (laplacian_losses v) NaN) (Fin (1 # 10))).
Proof.
  intros Hload Hnorm.
  destruct (script_ok L w n faces_idx verts0 Hload Hnorm)
    as (vk & wk & pk & v & w1 & p' & buf & _ & Hlast & _ & _ & _ & _ & _ & _ & _ & _
        & Hscript).
  destruct (state_after_ok L w n faces_idx Niter)
    as (v2 & w2 & p2 & xs & Hlast' & _ & _ & _ & _ & _ & _ & Hlenx & _ & Hdesc
        & Hc & He & Hn & Hl).
  rewrite Hlast in Hlast'; injection Hlast' as <- <-.
  eexists v, _, (map total_loss xs).
  split; [exact Hscript | cbn [descriptions]].
  split; [exact Hdesc | split; [rewrite length_map; exact Hlenx |]].
  intros i Hi; rewrite <- Hlenx in Hi.
  set (d := mkTerms NaN NaN NaN NaN).
  rewrite Hc, He, Hn, Hl.
  rewrite (nth_map_NaN total_loss xs d), (nth_map_NaN term_chamfer xs d),
    (nth_map_NaN term_edge xs d), (nth_map_NaN term_normal xs d),
    (nth_map_NaN term_laplacian xs d) by exact Hi.
  reflexivity.
Qed.

Lemma total_loss_is_weighted_sum_witness :
  exists v w' ds,
    script Toy.lib Toy.w0 = (inr v, w') /\
    descriptions w' = descriptions Toy.w0 ++ ds /\
    length ds = Niter /\
    forall i, (i < Niter)%nat ->
      nth i ds NaN =
      fadd (fadd (fadd (fmul (nth i (chamfer_losses v) NaN) (Fin 1))
                    (fmul (nth i (edge_losses v) NaN) (Fin 1)))
              (fmul (nth i (normal_losses v) NaN) (Fin (1 # 100))))
        (fmul (nth i (laplacian_losses v) NaN) (Fin (1 # 10))).
Proof.
  apply (total_loss_is_weighted_sum Toy.lib Toy.w0 Toy.target_verts
           Toy.target_faces Toy.target_normalized); reflexivity.
Defined.

(** C5: in a run that gets past loading and normalisation, the source mesh
    object and its vertex tensor hold the faces and vertices of the initial
    sphere before and after every iteration and at the end of the script,
    although the store is updated in place at the offsets; iteration [k]
    allocates a mesh object that did not exist before, whose vertices are
    the source vertices plus the current offsets, row by row, and whose
    faces are the source faces. *)
Theorem source_mesh_never_mutated (L : library) (w : world L) (verts0 : tensor)
  (faces_idx : list face) (n : normalized) :
  load_obj L (files w) trg_obj = inr (verts0, faces_idx) ->
  normalize verts0 = inr n ->
  (exists v w',
     script L w = (inr v, w') /\
     nth_error (heap w') (src_ref L w) =
       Some (MeshesObj (src_verts_ref L w) (faces_packed (ico_sphere L 4))) /\
     nth_error (heap w') (src_verts_ref L w) =
       Some (TensorObj (mkTensor (verts_packed (ico_sphere L 4)) None)) /\
     read_mesh L (src_ref L w) w' = (inr (ico_sphere L 4), w')) /\
  forall k, (k < Niter)%nat ->
    exists vk wk vk' wk' pk r,
      state_after L w n faces_idx k = (inr vk, wk) /\
      state_after L w n faces_idx (S k) = (inr vk', wk') /\
      read_mesh L (src_ref L w) wk = (inr (ico_sphere L 4), wk) /\
      read_mesh L (src_ref L w) wk' = (inr (ico_sphere L 4), wk') /\
      nth_error (heap wk') (src_ref L w) = nth_error (heap wk) (src_ref L w) /\
      nth_error (heap wk') (src_verts_ref L w) =
        nth_error (heap wk) (src_verts_ref L w) /\
      nth_error (heap wk) (deform_verts vk) = Some (TensorObj pk) /\
      length (data pk) = length (verts_packed (ico_sphere L 4)) /\
      new_src_mesh vk' = Some r /\
      nth_error (heap wk) r = None /\
      read_mesh L r wk' =
        (inr (mkMeshes (add (verts_packed (ico_sphere L 4)) (data pk))
                (faces_packed (ico_sphere L 4))), wk').
Proof.
  intros Hload Hnorm; split.
  - destruct (script_ok L w n faces_idx verts0 Hload Hnorm)
      as (vk & wk & pk & v & w1 & p' & buf & _ & _ & _ & Hlay & _ & _ & _ & _ & _ & _
          & Hscript).
    destruct Hlay as (Hsm & Hst & _).
    eexists v, _; split; [exact Hscript | cbn [heap]].
    split; [exact Hsm | split; [exact Hst |]].
    apply (read_mesh_value L _ _ (src_verts_ref L w)); cbn [heap]; assumption.
  - intros k _.
    destruct (state_after_step L w n faces_idx k)
      as (vk & wk & pk & v' & w' & p' & x & buf & Hk & Hk' & Hlay & Hlay' & Hlen & _ & _
          & Hnt & Hnm & Hnew & Hdk & _).
    exists vk, wk, v', w', pk, (S (length (heap wk))).
    destruct Hlay as (Hsm & Hst & _ & _ & Hd & _).
    destruct Hlay' as (Hsm' & Hst' & _).
    split; [exact Hk | split; [exact Hk' |]].
    split; [apply (read_mesh_value L _ _ (src_verts_ref L w)); assumption |].
    split; [apply (read_mesh_value L _ _ (src_verts_ref L w)); assumption |].
    split; [congruence | split; [congruence |]].
    split; [rewrite Hdk; exact Hd |].
    split; [exact Hlen | split; [exact Hnew |]].
    split; [apply nth_error_None; lia |].
    apply (read_mesh_run L _ _ _ _ _ Hnm Hnt).
Qed.

Lemma source_mesh_never_mutated_witness :
  exists v w',
    script Toy.lib Toy.w0 = (inr v, w') /\
    nth_error (heap w') (src_ref Toy.lib Toy.w0) =
      Some (MeshesObj (src_verts_ref Toy.lib Toy.w0)
              (faces_packed (Toy.ico_sphere 4))) /\
    nth_error (heap w') (src_verts_ref Toy.lib Toy.w0) =
      Some (TensorObj (mkTensor (verts_packed (Toy.ico_sphere 4)) None)) /\
    read_mesh Toy.lib (src_ref Toy.lib Toy.w0) w' = (inr (Toy.ico_sphere 4), w').
Proof.
  apply (source_mesh_never_mutated Toy.lib Toy.w0 Toy.target_verts
           Toy.target_faces Toy.target_normalized); reflexivity.
Defined.

Lemma read_write_file (fs : filesystem) (path : string) (c : file) :
  read_file (write_file fs path c) path = Some c.
Proof. unfold write_file; simpl; rewrite String.eqb_refl; reflexivity. Qed.



Lemma firstn_prefix {A : Type} (l1 l2 : list A) (k : nat) :
  length l1 = k -> l1 = firstn k (l1 ++ l2).
Proof.
  intros <-; rewrite firstn_app, firstn_all, Nat.sub_diag; simpl.
  symmetry; apply app_nil_r.
Qed.

(** C7: in a run that gets past loading and normalisation, each of the
    four histories ends with [Niter] entries; after [k] iterations each
    holds [k] entries, which are the first [k] entries of the final list,
    and iteration [k] appends exactly one entry to each. *)
Theorem loss_histories_complete (L : library) (w : world L) (verts0 : tensor)
  (faces_idx : list face) (n : normalized) :
  load_obj L (files w) trg_obj = inr (verts0, faces_idx) ->
  normalize verts0 = inr n ->
  exists v w',
    script L w = (inr v, w') /\
    length (chamfer_losses v) = Niter /\
    length (edge_losses v) = Niter /\
    length (normal_losses v) = Niter /\
    length (laplacian_losses v) = Niter /\
    (forall k, (k <= Niter)%nat ->
       exists vk wk,
         state_after L w n faces_idx k = (inr vk, wk) /\
         chamfer_losses vk = firstn k (chamfer_losses v) /\
         edge_losses vk = firstn k (edge_losses v) /\
         normal_losses vk = firstn k (normal_losses v) /\
         laplacian_losses vk = firstn k (laplacian_losses v)) /\
    (forall k, (k < Niter)%nat ->
       exists vk wk vk' wk' x,
         state_after L w n faces_idx k = (inr vk, wk) /\
         state_after L w n faces_idx (S k) = (inr vk', wk') /\
         chamfer_losses vk' = chamfer_losses vk ++ [term_chamfer x] /\
         edge_losses vk' = edge_losses vk ++ [term_edge x] /\
         normal_losses vk' = normal_losses vk ++ [term_normal x] /\
         laplacian_losses vk' = laplacian_losses vk ++ [term_laplacian x]).
Proof.
  intros Hload Hnorm.
  destruct (script_ok L w n faces_idx verts0 Hload Hnorm)
    as (vp & wp & pp & v & w1 & p' & buf & _ & Hlast & _ & _ & _ & _ & _ & _ & _ & _
        & Hscript).
  eexists v, _; split; [exact Hscript |].
  destruct (state_after_ok L w n faces_idx Niter)
    as (v2 & w2 & p2 & xs & Hlast' & _ & _ & _ & _ & _ & _ & Hlenx & _ & _
        & Hc & He & Hn & Hl).
  rewrite Hlast in Hlast'; injection Hlast' as <- <-.
  rewrite Hc, He, Hn, Hl, !length_map.
  repeat (split; [exact Hlenx |]).
  rewrite <- Hc, <- He, <- Hn, <- Hl.
  split.
  - intros k Hk.
    destruct (state_after_prefix L w n faces_idx k (Niter - k))
      as (vk & wk & v' & w' & ys & Hsk & Hend & Lc & Le & Ln & Ll & _ & Ec & Ee & En & El).
    replace (k + (Niter - k))%nat with Niter in Hend by lia.
    rewrite Hlast in Hend; injection Hend as <- <-.
    exists vk, wk; split; [exact Hsk |].
    rewrite Ec, Ee, En, El.
    repeat split; apply firstn_prefix; assumption.
  - intros k _.
    destruct (state_after_step L w n faces_idx k)
      as (vk & wk & pk & v' & w' & pk' & x & b & Hk & Hk' & _ & _ & _ & _ & _ & _ & _
          & _ & _ & _ & _ & _ & _ & Ec & Ee & En & El).
    exists vk, wk, v', w', x.
    repeat (split; [assumption |]); assumption.
Qed.

Lemma loss_histories_complete_witness :
  exists v w',
    script Toy.lib Toy.w0 = (inr v, w') /\
    length (chamfer_losses v) = Niter /\
    length (edge_losses v) = Niter /\
    length (normal_losses v) = Niter /\
    length (laplacian_losses v) = Niter.
Proof.
  destruct (loss_histories_complete Toy.lib Toy.w0 Toy.target_verts
              Toy.target_faces Toy.target_normalized eq_refl eq_refl)
    as (v & w' & Hs & Hc & He & Hn & Hl & _).
  exists v, w'; repeat split; assumption.
Defined.

(** C9: in a run that gets past loading and normalisation, the exported
    vertices are built from the offsets as they stood after [Niter - 1]
    iterations, that is at the start of the last one.  The last update of
    the optimiser then changes the offset tensor in place -- the script
    ends with the same object holding updated data -- and the file never
    sees it. *)
Theorem export_ignores_last_update (L : library) (w : world L) (verts0 : tensor)
  (faces_idx : list face) (n : normalized) :
  load_obj L (files w) trg_obj = inr (verts0, faces_idx) ->
  normalize verts0 = inr n ->
  exists vprev wprev pprev v w' pfinal buf,
    state_after L w n faces_idx (Niter - 1) = (inr vprev, wprev) /\
    nth_error (heap wprev) (deform_verts vprev) = Some (TensorObj pprev) /\
    script L w = (inr v, w') /\
    deform_verts v = deform_verts vprev /\
    nth_error (heap w') (deform_verts v) = Some (TensorObj pfinal) /\
    data pfinal = sgd_update (data pprev) buf /\
    read_file (files w') final_obj =
      Some (ObjFile
              (denormalize
                 (add (verts_packed (ico_sphere L 4)) (data pprev))
                 (scale n) (center n))
              (faces_packed (ico_sphere L 4))).
Proof.
  intros Hload Hnorm.
  destruct (script_ok L w n faces_idx verts0 Hload Hnorm)
    as (vk & wk & pk & v & w1 & p' & buf & Hprev & _ & Hlay & Hlay' & Hdk & Hdv & Hdata
        & _ & _ & _ & Hscript).
  destruct Hlay as (_ & _ & _ & _ & Hd & _).
  destruct Hlay' as (_ & _ & _ & _ & Hd' & _).
  eexists vk, wk, pk, v, _, p', buf.
  split; [exact Hprev |].
  split; [rewrite Hdk; exact Hd |].
  split; [exact Hscript |].
  split; [congruence |].
  split; [cbn [heap]; rewrite Hdv; exact Hd' |].
  split; [exact Hdata |].
  cbn [files]; apply read_write_file.
Qed.

Lemma export_ignores_last_update_witness :
  exists vprev wprev pprev v w' pfinal buf,
    state_after Toy.lib Toy.w0 Toy.target_normalized Toy.target_faces (Niter - 1) =
      (inr vprev, wprev) /\
    nth_error (heap wprev) (deform_verts vprev) = Some (TensorObj pprev) /\
    script Toy.lib Toy.w0 = (inr v, w') /\
    deform_verts v = deform_verts vprev /\
    nth_error (heap w') (deform_verts v) = Some (TensorObj pfinal) /\
    data pfinal = sgd_update (data pprev) buf /\
    read_file (files w') final_obj =
      Some (ObjFile
              (denormalize
                 (add (verts_packed (Toy.ico_sphere 4)) (data pprev))
                 (scale Toy.target_normalized) (center Toy.target_normalized))
              (faces_packed (Toy.ico_sphere 4))).
Proof.
  apply (export_ignores_last_update Toy.lib Toy.w0 Toy.target_verts
           Toy.target_faces Toy.target_normalized); reflexivity.
Defined.

(** On the small instance, after the first iteration the offsets have
    moved in place, yet the mesh that iteration built is still the source
    mesh: the update came after the mesh. *)
Example first_update_not_in_mesh :
  exists v1 w1 r p,
    state_after Toy.lib Toy.w0 Toy.target_normalized Toy.target_faces 1 =
      (inr v1, w1) /\
    new_src_mesh v1 = Some r /\
    read_mesh Toy.lib r w1 = (inr (Toy.ico_sphere 4), w1) /\
    nth_error (heap w1) (deform_verts v1) = Some (TensorObj p) /\
    data p <> full (length (verts_packed (Toy.ico_sphere 4))) (Fin 0).
Proof.
  eexists _, _, _, _; split; [vm_compute; reflexivity |].
  split; [reflexivity | split; [reflexivity | split; [reflexivity | discriminate]]].
Qed.

(** ** More on the normalisation *)


















(** X3: the normalisation raises exactly on the empty vertex set, and then
    [EmptyReduction]; on any other input, finite or not, it returns. *)
Theorem normalize_raises_iff_empty (t : tensor) :
  match normalize t with
  | inl e => t = [] /\ e = EmptyReduction
  | inr n =>
      t <> [] /\ center n = mean0 t /\ length (verts n) = length t
  end.
Proof.
  destruct t as [| v t]; [split; reflexivity |].
  unfold normalize, abs, sub_row; cbn [map max0 center verts].
  split; [discriminate | split; [reflexivity |]].
  unfold div_scalar; rewrite length_map; simpl; rewrite length_map; reflexivity.
Qed.



(** ** One iteration and the loop, exactly *)


Lemma fadd_zero_l (a : scalar) : fadd (Fin 0) a = a.
Proof.
  destruct a as [[n d] | | |]; try reflexivity.
  unfold fadd, Qplus; simpl.
  rewrite Z.mul_1_r; reflexivity.
Qed.

Lemma add_zeros_l (g : tensor) :
  forall g0 : tensor, length g0 = length g -> add (map (fun _ => vzero) g0) g = g.
Proof.
  induction g as [| v g IH]; intros [| v0 g0] H; simpl in H; try discriminate;
    [reflexivity |].
  unfold add in *; cbn [map zip_with]; rewrite IH by congruence; f_equal.
  destruct v as [x y z]; unfold vmap2, vzero; cbn [vx vy vz].
  rewrite !fadd_zero_l; reflexivity.
Qed.

Lemma Meshes_eta (m : Meshes) : mkMeshes (verts_packed m) (faces_packed m) = m.
Proof. destruct m; reflexivity. Qed.

Section LoopExact.

Variable L : library.
Variables (src_mesh src_verts trg_mesh trg_verts : ref).
Variables (src trg : Meshes).

Local Notation layout_of :=
  (layout src_mesh src_verts trg_mesh trg_verts src trg).

(** One iteration, with everything it leaves spelled out. *)
Lemma iteration_exact (i : nat) (v : vars) (w : world L) (p : Tensor) (nverts : nat) :
  layout_of (heap w) (deform_verts v) p ->
  param (optimizer v) = deform_verts v ->
  shapes_ok p (optimizer v) nverts ->
  exists v' w',
    iteration L src_mesh trg_mesh i v w = (inr v', w') /\
    nth_error (heap w') (deform_verts v) =
      Some (TensorObj
              (mkTensor
                 (sgd_update (data p)
                    (sgd_buffer (momentum_buffer (optimizer v))
                       (gradient_of L src trg (data p) (rng w))))
                 (Some (gradient_of L src trg (data p) (rng w))))) /\
    optimizer v' =
      mkSGD (deform_verts v)
        (Some (sgd_buffer (momentum_buffer (optimizer v))
                 (gradient_of L src trg (data p) (rng w)))) /\
    rng w' = snd (draw_src L src trg (data p) (rng w)) /\
    figures w' = figures w ++ iteration_plot src i (data p) /\
    descriptions w' =
      descriptions w ++ [total_loss (terms_of L src trg (data p) (rng w))] /\
    chamfer_losses v' =
      chamfer_losses v ++ [term_chamfer (terms_of L src trg (data p) (rng w))] /\
    edge_losses v' =
      edge_losses v ++ [term_edge (terms_of L src trg (data p) (rng w))] /\
    normal_losses v' =
      normal_losses v ++ [term_normal (terms_of L src trg (data p) (rng w))] /\
    laplacian_losses v' =
      laplacian_losses v ++ [term_laplacian (terms_of L src trg (data p) (rng w))].
Proof.
  destruct v as [d [pr b] cl ll el nl nm]; destruct p as [pd pg].
  cbn [deform_verts optimizer param momentum_buffer chamfer_losses laplacian_losses
       edge_losses normal_losses new_src_mesh data grad].
  unfold shapes_ok; cbn [data grad momentum_buffer].
  intros (Hsm & Hst & Htm & Htt & Hd & Hne1 & Hne2) -> (Sd & Sg & Sb).
  pose proof (lookup_lt _ _ _ Hsm) as Lsm.
  pose proof (lookup_lt _ _ _ Hst) as Lst.
  pose proof (lookup_lt _ _ _ Htm) as Ltm.
  pose proof (lookup_lt _ _ _ Htt) as Ltt.
  pose proof (lookup_lt _ _ _ Hd) as Ld.
  assert (Hne3 : d <> src_mesh) by congruence.
  assert (Hne4 : d <> trg_mesh) by congruence.
  assert (Hg : forall g : tensor, length g = length pd ->
             match option_map (map (fun _ : vec3 => vzero)) pg with
             | Some g0 => add g0 g
             | None => g
             end = g).
  { intros g Hlen; destruct pg as [g0 |]; cbn [option_map]; [| reflexivity].
    apply add_zeros_l; rewrite Hlen, Sd; apply Sg; reflexivity. }
  unfold iteration, forward_pass.
  cbn [deform_verts optimizer param momentum_buffer chamfer_losses laplacian_losses
       edge_losses normal_losses new_src_mesh].
  do 7 run_step.
  unfold iteration_plot.
  destruct (i mod plot_period =? 0)%nat; do 7 run_step; unfold ret;
    (eexists _, _; split; [reflexivity |];
     cbn [heap files figures descriptions rng param momentum_buffer data grad
          deform_verts optimizer chamfer_losses laplacian_losses edge_losses
          normal_losses new_src_mesh];
     rewrite ?app_nil_r;
     unfold terms_of, draw_src, draw_trg, deformed, gradient_of;
     cbn [term_chamfer term_edge term_normal term_laplacian];
     rewrite !Meshes_eta;
     rewrite !Hg by (rewrite length_map, length_seq; reflexivity);
     split; [lookup |];
     repeat (split; [reflexivity |]); reflexivity).
Qed.

End LoopExact.

Section ScriptExact.

Variable L : library.
Variables (w : world L) (n : normalized) (faces_idx : list face).

Local Notation src := (ico_sphere L 4).
Local Notation trg := (mkMeshes (verts n) faces_idx).
Local Notation st := (opt_state_at L w n faces_idx).
Local Notation terms := (terms_at L w n faces_idx).
Local Notation nverts := (length (verts_packed (ico_sphere L 4))).

Lemma state_after_zero :
  state_after L w n faces_idx 0 = (inr (vars_start L w), loop_start L w n faces_idx).
Proof. reflexivity. Qed.

Lemma loop_start_length :
  length (heap (loop_start L w n faces_idx)) = (5 + length (heap w))%nat.
Proof. unfold loop_start; cbn [heap]; rewrite length_app; simpl; lia. Qed.

(** The state after [k] iterations, in terms of the recurrence. *)
Lemma state_after_exact (k : nat) :
  exists vk wk,
    state_after L w n faces_idx k = (inr vk, wk) /\
    nth_error (heap wk) (deform_ref L w) =
      Some (TensorObj (mkTensor (offsets (st k)) (last_grad (st k)))) /\
    optimizer vk = mkSGD (deform_ref L w) (buffer (st k)) /\
    deform_verts vk = deform_ref L w /\
    rng wk = generator (st k) /\
    figures wk =
      figures (loop_start L w n faces_idx) ++ plots_upto L w n faces_idx k /\
    descriptions wk =
      descriptions w ++ map (fun j => total_loss (terms j)) (seq 0 k) /\
    chamfer_losses vk = map (fun j => term_chamfer (terms j)) (seq 0 k) /\
    edge_losses vk = map (fun j => term_edge (terms j)) (seq 0 k) /\
    normal_losses vk = map (fun j => term_normal (terms j)) (seq 0 k) /\
    laplacian_losses vk = map (fun j => term_laplacian (terms j)) (seq 0 k) /\
    length (heap wk) = (2 * k + 5 + length (heap w))%nat /\
    (forall j, (j < k)%nat ->
       nth_error (heap wk) (mesh_verts_ref L w j) =
         Some (TensorObj (mkTensor (add (verts_packed src) (offsets (st j))) None)) /\
       nth_error (heap wk) (mesh_ref L w j) =
         Some (MeshesObj (mesh_verts_ref L w j) (faces_packed src))) /\
    new_src_mesh vk =
      match k with
      | O => None
      | S j => Some (mesh_ref L w j)
      end.
Proof.
  induction k as [| k IH].
  - exists (vars_start L w), (loop_start L w n faces_idx).
    pose proof (loop_start_layout L w n faces_idx) as (_ & _ & _ & _ & Hd & _).
    split; [reflexivity |].
    split; [exact Hd |].
    unfold plots_upto; simpl; rewrite !app_nil_r.
    repeat (split; [first [reflexivity | apply loop_start_length] |]).
    split; [intros j Hj; lia | reflexivity].
  - destruct IH as (vk & wk & Hk & Hoff & Hopt & Hdv & Hrng & Hfig & Hdesc & Hc & He
                    & Hn & Hl & Hlen & Hold & Hnew).
    destruct (state_after_ok L w n faces_idx k)
      as (vk0 & wk0 & pk & xs & Hk0 & Hlay & _ & _ & _ & Hpar & Hshape & _).
    rewrite Hk in Hk0; injection Hk0 as <- <-.
    assert (Hpk : pk = mkTensor (offsets (st k)) (last_grad (st k))).
    { destruct Hlay as (_ & _ & _ & _ & Hd & _); congruence. }
    subst pk.
    rewrite <- Hdv in Hlay, Hpar.
    destruct (iteration_run L _ _ _ _ _ _ k vk wk _ nverts Hlay Hpar Hshape)
      as (v' & w' & x & p' & buf & Hrun & _ & Hlen' & Hframe & Hnt & Hnm & Hnew' & Hd'
          & _).
    destruct (iteration_exact L _ _ _ _ _ _ k vk wk _ nverts Hlay Hpar Hshape)
      as (v2 & w2 & Hrun2 & Hoff' & Hopt' & Hrng' & Hfig' & Hdesc' & Hc' & He' & Hn'
          & Hl').
    rewrite Hrun in Hrun2; injection Hrun2 as <- <-.
    cbn [data] in *.
    exists v', w'.
    rewrite state_after_succ, Hk.
    split; [exact Hrun |].
    rewrite Hdv in *.
    rewrite Hopt in Hoff', Hopt'; cbn [momentum_buffer] in Hoff', Hopt'.
    rewrite Hrng in *.
    split; [exact Hoff' |].
    split; [exact Hopt' |].
    split; [exact Hd' |].
    split; [exact Hrng' |].
    split.
    { rewrite Hfig', Hfig; unfold plots_upto.
      rewrite seq_S, flat_map_app, <- app_assoc; simpl; rewrite app_nil_r.
      reflexivity. }
    split.
    { rewrite Hdesc', Hdesc, seq_S, map_app, <- app_assoc; reflexivity. }
    split; [rewrite Hc', Hc, seq_S, map_app; reflexivity |].
    split; [rewrite He', He, seq_S, map_app; reflexivity |].
    split; [rewrite Hn', Hn, seq_S, map_app; reflexivity |].
    split; [rewrite Hl', Hl, seq_S, map_app; reflexivity |].
    split; [rewrite Hlen', Hlen; lia |].
    split.
    + intros j Hj.
      assert (Hcase : (j < k)%nat \/ j = k) by lia.
      destruct Hcase as [Hjk | ->].
      * destruct (Hold j Hjk) as (H1 & H2).
        unfold mesh_verts_ref, mesh_ref, deform_ref in *.
        rewrite !Hframe by lia; split; assumption.
      * unfold mesh_verts_ref, mesh_ref.
        replace (2 * k + 6 + length (heap w))%nat with (S (length (heap wk))) by lia.
        replace (2 * k + 5 + length (heap w))%nat with (length (heap wk)) by lia.
        split; [exact Hnt | exact Hnm].
    + unfold mesh_ref; rewrite Hnew'; f_equal; lia.
Qed.

End ScriptExact.

(** ** The run in terms of the recurrence *)


(** X7: what the histories hold.  After [k] iterations, entry [j] of each
    of the four lists is the corresponding loss of the source mesh deformed
    by the offsets as they stood at the start of iteration [j], the
    chamfer term being taken between the target sample, drawn first, and
    the sample of the deformed mesh; the progress bar holds the weighted
    totals of the same terms. *)
Theorem loss_history_entries (L : library) (w : world L) (n : normalized)
  (faces_idx : list face) (k : nat) :
  exists vk wk,
    state_after L w n faces_idx k = (inr vk, wk) /\
    chamfer_losses vk =
      map (fun j => term_chamfer (terms_at L w n faces_idx j)) (seq 0 k) /\
    edge_losses vk =
      map (fun j => term_edge (terms_at L w n faces_idx j)) (seq 0 k) /\
    normal_losses vk =
      map (fun j => term_normal (terms_at L w n faces_idx j)) (seq 0 k) /\
    laplacian_losses vk =
      map (fun j => term_laplacian (terms_at L w n faces_idx j)) (seq 0 k) /\
    descriptions wk =
      descriptions w ++
      map (fun j => total_loss (terms_at L w n faces_idx j)) (seq 0 k).
Proof.
  destruct (state_after_exact L w n faces_idx k)
    as (vk & wk & Hk & _ & _ & _ & _ & _ & Hdesc & Hc & He & Hn & Hl & _).
  exists vk, wk.
  repeat (split; [assumption |]); assumption.
Qed.

Lemma flat_map_if {A B : Type} (c : A -> bool) (f : A -> B) (l : list A) :
  flat_map (fun x => if c x then [f x] else []) l = map f (filter c l).
Proof.
  induction l as [| x l IH]; [reflexivity |].
  simpl; destruct (c x); simpl; rewrite IH; reflexivity.
Qed.

(** The iterations that plot. *)
Lemma plotting_iterations :
  filter (fun j => (j mod plot_period =? 0)%nat) (seq 0 Niter) =
  [0; 250; 500; 750; 1000; 1250; 1500; 1750]%nat.
Proof. vm_compute; reflexivity. Qed.

(** X8: the figures of a run that gets past loading and normalisation, in
    the order shown: the target, the source, one scatter plot of the
    deformed mesh for each of the iterations 0, 250, ..., 1750 -- titled
    with the iteration and showing (x, z, -y) of the mesh built from the
    offsets at the start of that iteration -- and last the four loss
    curves, each with one value per iteration. *)
Theorem figures_of_run (L : library) (w : world L) (verts0 : tensor)
  (faces_idx : list face) (n : normalized) :
  load_obj L (files w) trg_obj = inr (verts0, faces_idx) ->
  normalize verts0 = inr n ->
  exists v w',
    script L w = (inr v, w') /\
    figures w' =
      figures w ++
      [scatter_of (Title "Target mesh") (mkMeshes (verts n) faces_idx);
       scatter_of (Title "Source mesh") (ico_sphere L 4)] ++
      map (fun j =>
             scatter_of (IterTitle j)
               (deformed (ico_sphere L 4) (offsets (opt_state_at L w n faces_idx j))))
        [0; 250; 500; 750; 1000; 1250; 1500; 1750]%nat ++
      [LossCurves
         (map (fun j => term_chamfer (terms_at L w n faces_idx j)) (seq 0 Niter))
         (map (fun j => term_edge (terms_at L w n faces_idx j)) (seq 0 Niter))
         (map (fun j => term_normal (terms_at L w n faces_idx j)) (seq 0 Niter))
         (map (fun j => term_laplacian (terms_at L w n faces_idx j)) (seq 0 Niter))].
Proof.
  intros Hload Hnorm.
  destruct (script_ok L w n faces_idx verts0 Hload Hnorm)
    as (vk & wk & pk & v & w1 & p' & buf & _ & Hlast & _ & _ & _ & _ & _ & _ & _ & _
        & Hscript).
  destruct (state_after_exact L w n faces_idx Niter)
    as (v2 & w2 & Hlast' & _ & _ & _ & _ & Hfig & _ & Hc & He & Hn & Hl & _).
  rewrite Hlast in Hlast'; injection Hlast' as <- <-.
  eexists v, _; split; [exact Hscript |].
  cbn [figures]; rewrite Hfig, Hc, He, Hn, Hl.
  unfold plots_upto, iteration_plot.
  rewrite (flat_map_if (fun j => (j mod plot_period =? 0)%nat)), plotting_iterations.
  unfold loop_start; cbn [figures]; rewrite <- !app_assoc; reflexivity.
Qed.

Lemma figures_of_run_witness :
  exists v w',
    script Toy.lib Toy.w0 = (inr v, w') /\
    figures w' =
      figures Toy.w0 ++
      [scatter_of (Title "Target mesh")
         (mkMeshes (verts Toy.target_normalized) Toy.target_faces);
       scatter_of (Title "Source mesh") (ico_sphere Toy.lib 4)] ++
      map (fun j =>
             scatter_of (IterTitle j)
               (deformed (ico_sphere Toy.lib 4)
                  (offsets
                     (opt_state_at Toy.lib Toy.w0 Toy.target_normalized
                        Toy.target_faces j))))
        [0; 250; 500; 750; 1000; 1250; 1500; 1750]%nat ++
      [LossCurves
         (map (fun j =>
                 term_chamfer
                   (terms_at Toy.lib Toy.w0 Toy.target_normalized Toy.target_faces j))
            (seq 0 Niter))
         (map (fun j =>
                 term_edge
                   (terms_at Toy.lib Toy.w0 Toy.target_normalized Toy.target_faces j))
            (seq 0 Niter))
         (map (fun j =>
                 term_normal
                   (terms_at Toy.lib Toy.w0 Toy.target_normalized Toy.target_faces j))
            (seq 0 Niter))
         (map (fun j =>
                 term_laplacian
                   (terms_at Toy.lib Toy.w0 Toy.target_normalized Toy.target_faces j))
            (seq 0 Niter))].
Proof.
  apply (figures_of_run Toy.lib Toy.w0 Toy.target_verts Toy.target_faces
           Toy.target_normalized); reflexivity.
Defined.

(** X9: a deformed mesh is never changed after it was built.  The mesh of
    iteration [j] is still, after any later iteration [k], the source mesh
    moved by the offsets from the start of iteration [j], although the
    offset tensor it was built from has since been updated in place; it is
    an object of its own, and [new_src_mesh] names the mesh of the last
    iteration run. *)
Theorem deformed_meshes_persist (L : library) (w : world L) (n : normalized)
  (faces_idx : list face) (j k : nat) :
  (j < k)%nat ->
  exists vk wk,
    state_after L w n faces_idx k = (inr vk, wk) /\
    read_mesh L (mesh_ref L w j) wk =
      (inr (deformed (ico_sphere L 4) (offsets (opt_state_at L w n faces_idx j))), wk) /\
    mesh_ref L w j <> src_ref L w /\
    mesh_verts_ref L w j <> deform_verts vk /\
    new_src_mesh vk = Some (mesh_ref L w (k - 1)).
Proof.
  intros Hjk.
  destruct (state_after_exact L w n faces_idx k)
    as (vk & wk & Hk & _ & _ & Hdv & _ & _ & _ & _ & _ & _ & _ & _ & Hold & Hnew).
  destruct (Hold j Hjk) as (Hnt & Hnm).
  exists vk, wk.
  split; [exact Hk |].
  split; [apply (read_mesh_run L _ _ _ _ _ Hnm Hnt) |].
  split; [unfold mesh_ref, src_ref; lia |].
  split; [rewrite Hdv; unfold mesh_verts_ref, deform_ref; lia |].
  destruct k as [| k']; [lia |].
  rewrite Hnew; simpl; rewrite Nat.sub_0_r; reflexivity.
Qed.

Lemma deformed_meshes_persist_witness :
  exists vk wk,
    state_after Toy.lib Toy.w0 Toy.target_normalized Toy.target_faces 2 =
      (inr vk, wk) /\
    read_mesh Toy.lib (mesh_ref Toy.lib Toy.w0 0) wk =
      (inr (deformed (ico_sphere Toy.lib 4)
              (offsets
                 (opt_state_at Toy.lib Toy.w0 Toy.target_normalized
                    Toy.target_faces 0))), wk) /\
    mesh_ref Toy.lib Toy.w0 0 <> src_ref Toy.lib Toy.w0 /\
    mesh_verts_ref Toy.lib Toy.w0 0 <> deform_verts vk /\
    new_src_mesh vk = Some (mesh_ref Toy.lib Toy.w0 (2 - 1)).
Proof.
  apply (deformed_meshes_persist Toy.lib Toy.w0 Toy.target_normalized
           Toy.target_faces 0 2); lia.
Defined.



(** ** Every run of the script *)







Lemma tensor_at_data (h : list object) (r : ref) (a : tensor) (b : option tensor)
  (p : Tensor) :
  nth_error h r = Some (TensorObj (mkTensor a b)) ->
  nth_error h r = Some (TensorObj p) ->
  data p = a.
Proof. intros H1 H2; rewrite H1 in H2; injection H2 as <-; reflexivity. Qed.

(** X13: what a run that gets past loading and normalisation leaves.  The
    offsets end as those of [Niter] steps of the recurrence and the
    generator as advanced by all of them; the file holds the source mesh
    moved by the offsets of [Niter - 1] steps, scaled and moved back, with
    one vertex per vertex of the source mesh. *)
Theorem script_result_by_recurrence (L : library) (w : world L) (verts0 : tensor)
  (faces_idx : list face) (n : normalized) :
  load_obj L (files w) trg_obj = inr (verts0, faces_idx) ->
  normalize verts0 = inr n ->
  exists v w' final_verts,
    script L w = (inr v, w') /\
    nth_error (heap w') (deform_verts v) =
      Some (TensorObj
              (mkTensor (offsets (opt_state_at L w n faces_idx Niter))
                 (last_grad (opt_state_at L w n faces_idx Niter)))) /\
    rng w' = generator (opt_state_at L w n faces_idx Niter) /\
    final_verts =
      denormalize
        (add (verts_packed (ico_sphere L 4))
           (offsets (opt_state_at L w n faces_idx (Niter - 1))))
        (scale n) (center n) /\
    read_file (files w') final_obj =
      Some (ObjFile final_verts (faces_packed (ico_sphere L 4))) /\
    length final_verts = length (verts_packed (ico_sphere L 4)).
Proof.
  intros Hload Hnorm.
  destruct (script_ok L w n faces_idx verts0 Hload Hnorm)
    as (vk & wk & pk & v & w1 & p' & buf & Hprev & Hlast & Hlay & _ & _ & _ & _ & _ & _
        & _ & Hscript).
  destruct (state_after_exact L w n faces_idx Niter)
    as (v2 & w2 & Hlast' & Hoff & _ & Hdv & Hrng & _).
  rewrite Hlast in Hlast'; injection Hlast' as <- <-.
  destruct (state_after_exact L w n faces_idx (Niter - 1))
    as (v3 & w3 & Hprev' & Hoff3 & _).
  rewrite Hprev in Hprev'; injection Hprev' as <- <-.
  destruct (state_after_ok L w n faces_idx (Niter - 1))
    as (v4 & w4 & p4 & xs & Hprev' & Hlay4 & _ & _ & _ & _ & (Hshape & _) & _).
  rewrite Hprev in Hprev'; injection Hprev' as <- <-.
  assert (Hdata : data pk = offsets (opt_state_at L w n faces_idx (Niter - 1))).
  { destruct Hlay as (_ & _ & _ & _ & Hd & _).
    exact (tensor_at_data _ _ _ _ _ Hoff3 Hd). }
  assert (Hp4 : p4 = pk).
  { destruct Hlay as (_ & _ & _ & _ & Hd & _).
    destruct Hlay4 as (_ & _ & _ & _ & Hd4 & _); congruence. }
  subst p4; rewrite Hdata in Hshape, Hscript.
  exists v; eexists; eexists; split; [exact Hscript |].
  cbn [heap rng files].
  split; [rewrite Hdv; exact Hoff |].
  split; [exact Hrng |].
  split; [reflexivity |].
  split; [apply read_write_file |].
  unfold denormalize, add_row, mul_scalar.
  rewrite !length_map.
  apply add_length; [reflexivity | exact Hshape].
Qed.

Lemma script_result_by_recurrence_witness :
  exists v w' final_verts,
    script Toy.lib Toy.w0 = (inr v, w') /\
    nth_error (heap w') (deform_verts v) =
      Some (TensorObj
              (mkTensor
                 (offsets
                    (opt_state_at Toy.lib Toy.w0 Toy.target_normalized
                       Toy.target_faces Niter))
                 (last_grad
                    (opt_state_at Toy.lib Toy.w0 Toy.target_normalized
                       Toy.target_faces Niter)))) /\
    rng w' =
      generator
        (opt_state_at Toy.lib Toy.w0 Toy.target_normalized Toy.target_faces Niter) /\
    final_verts =
      denormalize
        (add (verts_packed (ico_sphere Toy.lib 4))
           (offsets
              (opt_state_at Toy.lib Toy.w0 Toy.target_normalized
                 Toy.target_faces (Niter - 1))))
        (scale Toy.target_normalized) (center Toy.target_normalized) /\
    read_file (files w') final_obj =
      Some (ObjFile final_verts (faces_packed (ico_sphere Toy.lib 4))) /\
    length final_verts = length (verts_packed (ico_sphere Toy.lib 4)).
Proof.
  apply (script_result_by_recurrence Toy.lib Toy.w0 Toy.target_verts
           Toy.target_faces Toy.target_normalized); reflexivity.
Defined.

(** ** Plotting and the target mesh *)

(** X14: [plot_pointcloud] only shows.  When it returns it has added one
    figure -- the scatter plot, under the given title, of (x, z, -y) for
    each vertex of the mesh, in order -- and has left the store, the files,
    the progress bar and the generator as they were; when the reference
    does not lead to a mesh it raises and the world is as before. *)
Theorem plot_pointcloud_frame (L : library) (mesh : ref) (ti : title) (w : world L) :
  match plot_pointcloud L mesh ti w with
  | (inr _, w') =>
      heap w' = heap w /\ files w' = files w /\
      descriptions w' = descriptions w /\ rng w' = rng w /\
      exists m,
        read_mesh L mesh w = (inr m, w) /\
        figures w' =
          figures w ++
          [Scatter ti (map (fun v => V3 (vx v) (vz v) (fneg (vy v))) (verts_packed m))]
  | (inl _, w') => w' = w
  end.
Proof.
  unfold plot_pointcloud, read_mesh, bind, get_meshes, get_tensor, ret, show.
  destruct (nth_error (heap w) mesh) as [[t | v f] |]; try reflexivity.
  cbn [fst snd].
  destruct (nth_error (heap w) v) as [[t | v' f'] |]; try reflexivity.
  cbn [heap files figures descriptions rng].
  repeat (split; [reflexivity |]).
  eexists; split; reflexivity.
Qed.

(** X15: the target mesh is never changed either.  In a run that gets
    past loading and normalisation, the target mesh object reads as the
    normalised target vertices with the loaded faces after any number of
    iterations and at the end of the script: the optimiser's in-place
    updates reach the offsets only. *)
Theorem target_mesh_never_mutated (L : library) (w : world L) (verts0 : tensor)
  (faces_idx : list face) (n : normalized) :
  load_obj L (files w) trg_obj = inr (verts0, faces_idx) ->
  normalize verts0 = inr n ->
  (exists v w',
     script L w = (inr v, w') /\
     read_mesh L (trg_ref L w) w' = (inr (mkMeshes (verts n) faces_idx), w')) /\
  forall k,
    exists vk wk,
      state_after L w n faces_idx k = (inr vk, wk) /\
      read_mesh L (trg_ref L w) wk = (inr (mkMeshes (verts n) faces_idx), wk) /\
      trg_ref L w <> deform_verts vk /\
      trg_verts_ref L w <> deform_verts vk.
Proof.
  intros Hload Hnorm; split.
  - destruct (script_ok L w n faces_idx verts0 Hload Hnorm)
      as (vk & wk & pk & v & w1 & p' & buf & _ & _ & _ & Hlay & _ & _ & _ & _ & _ & _
          & Hscript).
    destruct Hlay as (_ & _ & Htm & Htt & _).
    eexists v, _; split; [exact Hscript |].
    apply (read_mesh_value L _ _ (trg_verts_ref L w) (mkMeshes (verts n) faces_idx));
      cbn [heap]; assumption.
  - intros k.
    destruct (state_after_ok L w n faces_idx k)
      as (vk & wk & pk & xs & Hk & Hlay & _ & _ & Hdv & _).
    destruct Hlay as (_ & _ & Htm & Htt & _).
    exists vk, wk; split; [exact Hk |].
    split.
    { apply (read_mesh_value L _ _ (trg_verts_ref L w) (mkMeshes (verts n) faces_idx));
        assumption. }
    rewrite Hdv; unfold trg_ref, trg_verts_ref, deform_ref; split; lia.
Qed.

Lemma target_mesh_never_mutated_witness :
  exists v w',
    script Toy.lib Toy.w0 = (inr v, w') /\
    read_mesh Toy.lib (trg_ref Toy.lib Toy.w0) w' =
      (inr (mkMeshes (verts Toy.target_normalized) Toy.target_faces), w').
Proof.
  apply (target_mesh_never_mutated Toy.lib Toy.w0 Toy.target_verts
           Toy.target_faces Toy.target_normalized); reflexivity.
Defined.
